(** * WebGLProfiler: a shallow embedding of the GPU profiler class

    The profiler simulates nested timers on top of the
    EXT_disjoint_timer_query extension, which allows one active query at a
    time.  Every pushContext/popContext swaps the active query; the query
    just closed is queued together with the action that closed it, and its
    duration is read back later, when the GPU has produced it.

    The class is embedded as a record for the instance fields, a record for
    the WebGL context it talks to, and one function per method in a small
    state-and-exception monad.  A JavaScript [throw] keeps every mutation
    made before it, so a completion carries the state in both outcomes. *)

From stdpp Require Import gmap strings list.
From Stdlib Require Import ZArith Lia.

Set Default Proof Using "Type".

(** ** Types declared at the end of the source file *)

Inductive GPUProfilerActionType := OPEN_FRAME | CLOSE_FRAME.

(** interface GPUProfilerAction { type; name } *)
Record GPUProfilerAction := mkAction {
  act_type : GPUProfilerActionType;
  act_name : string;
}.

(** interface WebGLTimerQueryEXT {}: an opaque handle. *)
Definition WebGLTimerQueryEXT := nat.

(** interface GPUProfilerEventPendingTimestamp { action; query } *)
Record GPUProfilerEventPendingTimestamp := mkPending {
  pend_action : GPUProfilerAction;
  pend_query : WebGLTimerQueryEXT;
}.

(** interface GPUProfilerResolvedEvent { action; timestamp }.  Durations are
    nanosecond counts; they are integers here. *)
Record GPUProfilerResolvedEvent := mkResolved {
  res_action : GPUProfilerAction;
  res_timestamp : Z;
}.

(** The extension object returned by getExtension. *)
Inductive EXTDisjointTimerQuery := ExtObject.

Inductive SpeedscopeEventType := SpeedscopeOPEN_FRAME | SpeedscopeCLOSE_FRAME.

(** What [frameToIndex[name]] evaluates to.  [frameToIndex] is a plain
    object literal, so [name in frameToIndex] is also true for the
    properties every object inherits from Object.prototype, and reading such
    a key yields the inherited property, not a frame index. *)
Inductive FrameRef :=
  | FrameIndex (i : nat)
  | InheritedProperty (key : string).

(** SpeedscopeOpenFrameEvent | SpeedscopeCloseFrameEvent, as pushed by
    toSpeedscopeProfile: { type, frame, at } *)
Record SpeedscopeEvent := mkEvent {
  ev_type : SpeedscopeEventType;
  ev_frame : FrameRef;
  ev_at : Z;
}.

(** interface SpeedscopeFrame { name } (file, line, col are never set) *)
Record SpeedscopeFrame := mkFrame { frame_name : string }.

Inductive SpeedscopeProfileType := EVENTED | SAMPLED.

(** interface SpeedscopeEventedProfile *)
Record SpeedscopeEventedProfile := mkProfile {
  prof_type : SpeedscopeProfileType;
  prof_name : string;
  prof_unit : string;
  prof_startValue : Z;
  prof_endValue : Z;
  prof_events : list SpeedscopeEvent;
}.

(** interface SpeedscopeFile { $schema; shared: { frames }; profiles } *)
Record SpeedscopeFile := mkFile {
  file_schema : string;
  file_shared_frames : list SpeedscopeFrame;
  file_profiles : list SpeedscopeEventedProfile;
}.

(** ** The WebGL context

    The part of the rendering context the profiler can observe.  Query
    handles are handed out in sequence.  Within one synchronous call the
    answers of getQueryObjectEXT do not change (WebGL makes results
    available only between tasks), so they are plain fields; the disjoint
    flag may be reported differently on each read, so its successive
    readings form a script, exhausted scripts reading false. *)
Record WebGLRenderingContext := mkGL {
  gl_extensions : list string;
  gl_unmasked_renderer : string;
  gl_next_query : WebGLTimerQueryEXT;
  gl_active_query : option WebGLTimerQueryEXT;
  gl_deleted : list WebGLTimerQueryEXT;
  gl_result_available : WebGLTimerQueryEXT -> bool;
  gl_result : WebGLTimerQueryEXT -> Z;
  gl_disjoint : list bool;
}.

(** context.getExtension(name) != null *)
Definition getExtension (name : string) (gl : WebGLRenderingContext) : bool :=
  bool_decide (name ∈ gl_extensions gl).

(** context.getParameter(infoExt.UNMASKED_RENDERER_WEBGL) *)
Definition getParameter_UNMASKED_RENDERER_WEBGL (gl : WebGLRenderingContext) : string :=
  gl_unmasked_renderer gl.

(** ext.createQueryEXT() *)
Definition createQueryEXT (gl : WebGLRenderingContext)
  : WebGLTimerQueryEXT * WebGLRenderingContext :=
  (gl_next_query gl,
   mkGL (gl_extensions gl) (gl_unmasked_renderer gl) (S (gl_next_query gl))
        (gl_active_query gl) (gl_deleted gl) (gl_result_available gl)
        (gl_result gl) (gl_disjoint gl)).

(** ext.beginQueryEXT(ext.TIME_ELAPSED_EXT, query) *)
Definition beginQueryEXT (query : WebGLTimerQueryEXT) (gl : WebGLRenderingContext)
  : WebGLRenderingContext :=
  mkGL (gl_extensions gl) (gl_unmasked_renderer gl) (gl_next_query gl)
       (Some query) (gl_deleted gl) (gl_result_available gl)
       (gl_result gl) (gl_disjoint gl).

(** ext.endQueryEXT(ext.TIME_ELAPSED_EXT) *)
Definition endQueryEXT (gl : WebGLRenderingContext) : WebGLRenderingContext :=
  mkGL (gl_extensions gl) (gl_unmasked_renderer gl) (gl_next_query gl)
       None (gl_deleted gl) (gl_result_available gl)
       (gl_result gl) (gl_disjoint gl).

(** ext.deleteQueryEXT(query) *)
Definition deleteQueryEXT (query : WebGLTimerQueryEXT) (gl : WebGLRenderingContext)
  : WebGLRenderingContext :=
  mkGL (gl_extensions gl) (gl_unmasked_renderer gl) (gl_next_query gl)
       (gl_active_query gl) (query :: gl_deleted gl) (gl_result_available gl)
       (gl_result gl) (gl_disjoint gl).

(** ext.getQueryObjectEXT(query, ext.QUERY_RESULT_AVAILABLE_EXT) *)
Definition getQueryObjectEXT_QUERY_RESULT_AVAILABLE_EXT
  (query : WebGLTimerQueryEXT) (gl : WebGLRenderingContext) : bool :=
  gl_result_available gl query.

(** ext.getQueryObjectEXT(query, ext.QUERY_RESULT_EXT) *)
Definition getQueryObjectEXT_QUERY_RESULT_EXT
  (query : WebGLTimerQueryEXT) (gl : WebGLRenderingContext) : Z :=
  gl_result gl query.

(** context.getParameter(ext.GPU_DISJOINT_EXT): consumes one reading. *)
Definition getParameter_GPU_DISJOINT_EXT (gl : WebGLRenderingContext)
  : bool * WebGLRenderingContext :=
  match gl_disjoint gl with
  | [] => (false, gl)
  | b :: later =>
      (b, mkGL (gl_extensions gl) (gl_unmasked_renderer gl) (gl_next_query gl)
               (gl_active_query gl) (gl_deleted gl) (gl_result_available gl)
               (gl_result gl) later)
  end.

(** ** The instance fields of class WebGLProfiler

    The [context] field is the [WebGLRenderingContext] threaded next to the
    record.  Arrays grow at the end: the top of [namedContextStack] is its
    last element. *)
Record WebGLProfiler := mkProfiler {
  ext : option EXTDisjointTimerQuery;
  activeQuery : option WebGLTimerQueryEXT;
  isRunning : bool;
  eventsPendingTimestamps : list GPUProfilerEventPendingTimestamp;
  resolvedEvents : list GPUProfilerResolvedEvent;
  namedContextStack : list string;
}.

Definition set_activeQuery (q : option WebGLTimerQueryEXT) (this : WebGLProfiler) :=
  mkProfiler (ext this) q (isRunning this) (eventsPendingTimestamps this)
             (resolvedEvents this) (namedContextStack this).

Definition set_isRunning (b : bool) (this : WebGLProfiler) :=
  mkProfiler (ext this) (activeQuery this) b (eventsPendingTimestamps this)
             (resolvedEvents this) (namedContextStack this).

Definition set_eventsPendingTimestamps
  (l : list GPUProfilerEventPendingTimestamp) (this : WebGLProfiler) :=
  mkProfiler (ext this) (activeQuery this) (isRunning this) l
             (resolvedEvents this) (namedContextStack this).

Definition set_resolvedEvents
  (l : list GPUProfilerResolvedEvent) (this : WebGLProfiler) :=
  mkProfiler (ext this) (activeQuery this) (isRunning this)
             (eventsPendingTimestamps this) l (namedContextStack this).

Definition set_namedContextStack (l : list string) (this : WebGLProfiler) :=
  mkProfiler (ext this) (activeQuery this) (isRunning this)
             (eventsPendingTimestamps this) (resolvedEvents this) l.

(** ** Errors

    Every failure is a plain [new Error(message)]; one constructor per throw
    site, in source order. *)
Inductive Error :=
  | ExtensionNotAvailable
  | AlreadyRunning
  | BuggyRenderer (renderer : string)
  | AlreadyStopped
  | PopOnEmptyStack
  | PopMismatch (popped name : string)
  | NoProfileActive
  | GpuDisjoint
  | ProfileIsEmpty.

Definition message (e : Error) : string :=
  match e with
  | ExtensionNotAvailable =>
      "EXT_disjoint_timer_query WebGL extension is not available. Cannot start profiler."
  | AlreadyRunning => "Profiler is already running"
  | BuggyRenderer renderer =>
      renderer +:+ " cards seem to have a buggy implementation of EXT_disjoint_timer_query. Refusing to record to avoid misleading results."
  | AlreadyStopped => "Profiler is already stopped"
  | PopOnEmptyStack => "Tried to pop a context when the context stack is empty!"
  | PopMismatch popped name =>
      "Expected popContext to be called with " +:+ popped +:+
      ", but it was called with " +:+ name
  | NoProfileActive => "Cannot mark actions while no profile is active"
  | GpuDisjoint => "GPU_DISJOINT_EXT"
  | ProfileIsEmpty => "Profile is empty"
  end.

(** The error taxonomy of the specification, section 7. *)
Inductive ErrorClass :=
  | UnsupportedError
  | UnsupportedHardwareError
  | InvalidStateError
  | ProtocolError
  | UnreliableTimingError
  | EmptyProfileError.

Definition classify (e : Error) : ErrorClass :=
  match e with
  | ExtensionNotAvailable => UnsupportedError
  | BuggyRenderer _ => UnsupportedHardwareError
  | AlreadyRunning | AlreadyStopped => InvalidStateError
  | PopOnEmptyStack | PopMismatch _ _ | NoProfileActive => ProtocolError
  | GpuDisjoint => UnreliableTimingError
  | ProfileIsEmpty => EmptyProfileError
  end.

(** ** The monad of method bodies *)

Inductive Completion (A : Type) :=
  | Normal (a : A)
  | Throw (e : Error).
Arguments Normal {A} a.
Arguments Throw {A} e.

Definition State : Type := WebGLProfiler * WebGLRenderingContext.

Definition M (A : Type) : Type := State -> Completion A * State.

Definition ret {A} (a : A) : M A := fun st => (Normal a, st).

Definition bind {A B} (m : M A) (k : A -> M B) : M B :=
  fun st =>
    match m st with
    | (Normal a, st') => k a st'
    | (Throw e, st') => (Throw e, st')
    end.

Definition throw {A} (e : Error) : M A := fun st => (Throw e, st).

Definition getThis : M WebGLProfiler := fun st => (Normal (fst st), st).

Definition modifyThis (f : WebGLProfiler -> WebGLProfiler) : M unit :=
  fun st => (Normal tt, (f (fst st), snd st)).

(** A call that changes the context and returns a value. *)
Definition glCall {A} (f : WebGLRenderingContext -> A * WebGLRenderingContext) : M A :=
  fun st => let (a, c) := f (snd st) in (Normal a, (fst st, c)).

(** A call that only changes the context. *)
Definition glDo (f : WebGLRenderingContext -> WebGLRenderingContext) : M unit :=
  fun st => (Normal tt, (fst st, f (snd st))).

(** A getter. *)
Definition glGet {A} (f : WebGLRenderingContext -> A) : M A :=
  fun st => (Normal (f (snd st)), st).

Notation "x <- m ;; k" := (bind m (fun x => k))
  (at level 100, m at next level, right associativity).
Notation "m ;; k" := (bind m (fun _ => k))
  (at level 100, right associativity).

(** ** Methods of class WebGLProfiler *)

(** constructor(context) *)
Definition new_WebGLProfiler (context : WebGLRenderingContext) : WebGLProfiler :=
  mkProfiler
    (if getExtension "EXT_disjoint_timer_query" context then Some ExtObject else None)
    None false [] [] [].

Definition isProfilerRunning : M bool :=
  this <- getThis ;; ret (isRunning this).

(** String.prototype.indexOf: position of the first occurrence, or -1. *)
Definition indexOf (s searchString : string) : Z :=
  match String.index 0 searchString s with
  | Some i => Z.of_nat i
  | None => (-1)%Z
  end.

(** private markAction(action) *)
Definition markAction (action : GPUProfilerAction) : M unit :=
  this <- getThis ;;
  match ext this with
  | None => ret tt
  | Some _ =>
      match activeQuery this with
      | None => throw NoProfileActive
      | Some oldQuery =>
          newQuery <- glCall createQueryEXT ;;
          modifyThis (set_activeQuery (Some newQuery)) ;;
          glDo endQueryEXT ;;
          glDo (beginQueryEXT newQuery) ;;
          modifyThis (fun this =>
            set_eventsPendingTimestamps
              (eventsPendingTimestamps this ++ [mkPending action oldQuery]) this)
      end
  end.

Definition pushContext (name : string) : M unit :=
  markAction (mkAction OPEN_FRAME name) ;;
  modifyThis (fun this =>
    set_namedContextStack (namedContextStack this ++ [name]) this).

(** this.namedContextStack.pop(): removes the last element and returns it
    ([None] stands for undefined). *)
Definition namedContextStack_pop : M (option string) :=
  fun st =>
    (Normal (last (namedContextStack (fst st))),
     (set_namedContextStack (removelast (namedContextStack (fst st))) (fst st),
      snd st)).

Definition popContext (name : string) : M unit :=
  this <- getThis ;;
  if (length (namedContextStack this) =? 0)%nat then throw PopOnEmptyStack
  else
    popped <- namedContextStack_pop ;;
    if negb (bool_decide (popped = Some name))
    then throw (PopMismatch (default "undefined" popped) name)
    else markAction (mkAction CLOSE_FRAME name).

Definition withContext (name : string) (callback : M unit) : M unit :=
  pushContext name ;;
  callback ;;
  popContext name.

Definition start : M unit :=
  this <- getThis ;;
  match ext this with
  | None => throw ExtensionNotAvailable
  | Some _ =>
      if isRunning this then throw AlreadyRunning
      else
        infoExt <- glGet (getExtension "WEBGL_debug_renderer_info") ;;
        (if infoExt then
           renderer <- glGet getParameter_UNMASKED_RENDERER_WEBGL ;;
           if negb (indexOf renderer "NVIDIA GeForce GT 750M" =? -1)%Z
           then throw (BuggyRenderer renderer)
           else ret tt
         else ret tt) ;;
        modifyThis (set_isRunning true) ;;
        modifyThis (set_eventsPendingTimestamps []) ;;
        modifyThis (set_resolvedEvents []) ;;
        query <- glCall createQueryEXT ;;
        modifyThis (set_activeQuery (Some query)) ;;
        glDo (beginQueryEXT query) ;;
        pushContext "profile"
  end.

Definition stop : M unit :=
  this <- getThis ;;
  match ext this with
  | None => ret tt
  | Some _ =>
      if negb (isRunning this) then throw AlreadyStopped
      else
        modifyThis (set_isRunning false) ;;
        popContext "profile" ;;
        modifyThis (set_activeQuery None) ;;
        glDo endQueryEXT
  end.

(** The [while (i < this.eventsPendingTimestamps.length)] loop of
    resolveEventsIfPossible.  [remaining] is the part of the queue from
    index [i] on; the result is the final value of [i]. *)
Fixpoint resolveLoop (remaining : list GPUProfilerEventPendingTimestamp) (i : nat)
  : M nat :=
  match remaining with
  | [] => ret i
  | pendingAction :: later =>
      let query := pend_query pendingAction in
      available <- glGet (getQueryObjectEXT_QUERY_RESULT_AVAILABLE_EXT query) ;;
      if negb available then ret i
      else
        disjoint <- glCall getParameter_GPU_DISJOINT_EXT ;;
        if disjoint then throw GpuDisjoint
        else
          elapsed <- glGet (getQueryObjectEXT_QUERY_RESULT_EXT query) ;;
          glDo (deleteQueryEXT query) ;;
          this <- getThis ;;
          let lastTimestamp :=
            match last (resolvedEvents this) with
            | None => 0%Z
            | Some event => res_timestamp event
            end in
          let timestamp := (lastTimestamp + elapsed)%Z in
          modifyThis (set_resolvedEvents
            (resolvedEvents this ++ [mkResolved (pend_action pendingAction) timestamp])) ;;
          resolveLoop later (S i)
  end.

(** private resolveEventsIfPossible() *)
Definition resolveEventsIfPossible : M unit :=
  this <- getThis ;;
  match ext this with
  | None => ret tt
  | Some _ =>
      i <- resolveLoop (eventsPendingTimestamps this) 0 ;;
      if (0 <? i)%nat
      then modifyThis (fun this =>
             set_eventsPendingTimestamps (drop i (eventsPendingTimestamps this)) this)
      else ret tt
  end.

(** The own properties of Object.prototype, which every object literal
    inherits. *)
Definition Object_prototype : list string :=
  [ "constructor"; "__defineGetter__"; "__defineSetter__"; "hasOwnProperty";
    "__lookupGetter__"; "__lookupSetter__"; "isPrototypeOf";
    "propertyIsEnumerable"; "toString"; "valueOf"; "__proto__";
    "toLocaleString" ].

(** [name in frameToIndex] *)
Definition in_frameToIndex (name : string) (frameToIndex : gmap string nat) : bool :=
  bool_decide (is_Some (frameToIndex !! name))
  || bool_decide (name ∈ Object_prototype).

(** function getOrInsertFrame(name), closed over [frames] and
    [frameToIndex] *)
Definition getOrInsertFrame (name : string)
  (frames : list SpeedscopeFrame) (frameToIndex : gmap string nat)
  : FrameRef * list SpeedscopeFrame * gmap string nat :=
  let '(frames, frameToIndex) :=
    if negb (in_frameToIndex name frameToIndex)
    then (frames ++ [mkFrame name], <[name := length frames]> frameToIndex)
    else (frames, frameToIndex) in
  (match frameToIndex !! name with
   | Some i => FrameIndex i
   | None => InheritedProperty name
   end, frames, frameToIndex).

Definition speedscopeEventType (t : GPUProfilerActionType) : SpeedscopeEventType :=
  match t with
  | OPEN_FRAME => SpeedscopeOPEN_FRAME
  | CLOSE_FRAME => SpeedscopeCLOSE_FRAME
  end.

(** The [for (let event of this.resolvedEvents)] loop of
    toSpeedscopeProfile. *)
Fixpoint convertEvents (events : list GPUProfilerResolvedEvent)
  (frames : list SpeedscopeFrame) (frameToIndex : gmap string nat)
  (speedscopeEvents : list SpeedscopeEvent)
  : list SpeedscopeFrame * list SpeedscopeEvent :=
  match events with
  | [] => (frames, speedscopeEvents)
  | event :: later =>
      let '(frame, frames, frameToIndex) :=
        getOrInsertFrame (act_name (res_action event)) frames frameToIndex in
      convertEvents later frames frameToIndex
        (speedscopeEvents ++
           [mkEvent (speedscopeEventType (act_type (res_action event)))
                    frame (res_timestamp event)])
  end.

(** private toSpeedscopeProfile(): the file object handed to
    JSON.stringify. *)
Definition toSpeedscopeProfile : M SpeedscopeFile :=
  this <- getThis ;;
  if (length (resolvedEvents this) =? 0)%nat then throw ProfileIsEmpty
  else
    let endValue :=
      match last (resolvedEvents this) with
      | None => 0%Z
      | Some event => res_timestamp event
      end in
    let '(frames, speedscopeEvents) :=
      convertEvents (resolvedEvents this) [] ∅ [] in
    ret (mkFile "https://www.Speedscopeapp/file-format-schema.json" frames
           [mkProfile EVENTED "GPU Profile" "nanoseconds" 0 endValue
                      speedscopeEvents]).

(** async exportSpeedscopeProfile().  Each [await] of an animation frame
    hands control to the host, which may change the context; the list gives
    the host's effect at each successive frame; the client makes no other
    profiler call meanwhile.  [None] is a promise still pending when the
    listed frames are over. *)
Fixpoint exportSpeedscopeProfile
  (animationFrames : list (WebGLRenderingContext -> WebGLRenderingContext))
  (st : State) : option (Completion SpeedscopeFile) * State :=
  if (0 <? length (eventsPendingTimestamps (fst st)))%nat then
    match resolveEventsIfPossible st with
    | (Throw e, st') => (Some (Throw e), st')
    | (Normal _, st') =>
        match animationFrames with
        | [] => (None, st')
        | frame :: later =>
            exportSpeedscopeProfile later (fst st', frame (snd st'))
        end
    end
  else
    let (c, st') := toSpeedscopeProfile st in (Some c, st').

(** ** Client programs *)

(** A synchronous client call; [GLWork] is any other use of the context
    between two profiler calls. *)
Inductive Call :=
  | Start
  | Stop
  | PushContext (name : string)
  | PopContext (name : string)
  | GLWork (work : WebGLRenderingContext -> WebGLRenderingContext).

Definition call (c : Call) : M unit :=
  match c with
  | Start => start
  | Stop => stop
  | PushContext name => pushContext name
  | PopContext name => popContext name
  | GLWork work => glDo work
  end.

(** A script: the first exception ends it. *)
Fixpoint run (cs : list Call) : M unit :=
  match cs with
  | [] => ret tt
  | c :: later => call c ;; run later
  end.

(** The guard of start() against the card with the buggy implementation:
    the debug extension is there and the renderer string names the card. *)
Definition denylisted (gl : WebGLRenderingContext) : bool :=
  getExtension "WEBGL_debug_renderer_info" gl
  && negb (indexOf (getParameter_UNMASKED_RENDERER_WEBGL gl)
                   "NVIDIA GeForce GT 750M" =? -1)%Z.

(** ** Notions used to state what resolveEventsIfPossible does *)

(** The result of a pending entry's query is available. *)
Definition available (gl : WebGLRenderingContext)
  (p : GPUProfilerEventPendingTimestamp) : Prop :=
  gl_result_available gl (pend_query p) = true.

(** The timestamp of the last resolved event, 0 when there is none. *)
Definition lastTimestamp (resolved : list GPUProfilerResolvedEvent) : Z :=
  match last resolved with
  | None => 0%Z
  | Some event => res_timestamp event
  end.

(** The resolved list after the entries [ps] have been consumed in order,
    each stamped with the running sum. *)
Fixpoint resolveAll (elapsed : WebGLTimerQueryEXT -> Z)
  (resolved : list GPUProfilerResolvedEvent)
  (ps : list GPUProfilerEventPendingTimestamp) : list GPUProfilerResolvedEvent :=
  match ps with
  | [] => resolved
  | p :: later =>
      resolveAll elapsed
        (resolved ++
           [mkResolved (pend_action p)
              (lastTimestamp resolved + elapsed (pend_query p))%Z])
        later
  end.

(** The events appended for [ps] when the last timestamp so far is [t]. *)
Fixpoint stamp (elapsed : WebGLTimerQueryEXT -> Z) (t : Z)
  (ps : list GPUProfilerEventPendingTimestamp) : list GPUProfilerResolvedEvent :=
  match ps with
  | [] => []
  | p :: later =>
      let t' := (t + elapsed (pend_query p))%Z in
      mkResolved (pend_action p) t' :: stamp elapsed t' later
  end.

(** The context after [reads] readings of the disjoint flag and the deletion
    of [queries], in that order. *)
Definition polled (reads : nat) (queries : list WebGLTimerQueryEXT)
  (gl : WebGLRenderingContext) : WebGLRenderingContext :=
  mkGL (gl_extensions gl) (gl_unmasked_renderer gl) (gl_next_query gl)
       (gl_active_query gl) (rev queries ++ gl_deleted gl)
       (gl_result_available gl) (gl_result gl) (drop reads (gl_disjoint gl)).

(** The host sets the script of disjoint readings. *)
Definition set_gl_disjoint (script : list bool) (gl : WebGLRenderingContext)
  : WebGLRenderingContext :=
  mkGL (gl_extensions gl) (gl_unmasked_renderer gl) (gl_next_query gl)
       (gl_active_query gl) (gl_deleted gl) (gl_result_available gl)
       (gl_result gl) script.

(** ** Invariants *)

(** The flag and the handle agree. *)
Definition running_iff_active (this : WebGLProfiler) : Prop :=
  isRunning this = true <-> is_Some (activeQuery this).

(** [m] keeps [P], however it ends. *)
Definition preserves {A} (P : WebGLProfiler -> Prop) (m : M A) : Prop :=
  forall this gl, P this -> P (fst (snd (m (this, gl)))).

(** Every duration the context reports is non-negative. *)
Definition nonneg (gl : WebGLRenderingContext) : Prop :=
  forall query,
    gl_result_available gl query = true -> (0 <= gl_result gl query)%Z.

(** Timestamps do not decrease along the resolved list. *)
Definition chronological (resolved : list GPUProfilerResolvedEvent) : Prop :=
  forall i j a b,
    i <= j -> resolved !! i = Some a -> resolved !! j = Some b ->
    (res_timestamp a <= res_timestamp b)%Z.

(** The profiler states a client can bring about, from a fresh instance, by
    synchronous calls and by the resolution steps of an export, each in an
    arbitrary context, the contexts of the resolution steps reporting
    non-negative durations.  A call may end by an exception and the client
    go on.  withContext(name, callback) is pushContext, the callback, then
    popContext, so with a callback made of such calls it adds no state. *)
Inductive reachable : WebGLProfiler -> Prop :=
  | reachable_new context : reachable (new_WebGLProfiler context)
  | reachable_call c this gl :
      reachable this -> reachable (fst (snd (call c (this, gl))))
  | reachable_resolve this gl :
      reachable this -> nonneg gl ->
      reachable (fst (snd (resolveEventsIfPossible (this, gl)))).

(** ** Nesting *)

(** Scripts of pushContext/popContext calls in which every pop names the
    matching push, with any other work in between. *)
Inductive WellNested : list Call -> Prop :=
  | WellNested_nil : WellNested []
  | WellNested_work work cs :
      WellNested cs -> WellNested (GLWork work :: cs)
  | WellNested_scope name body cs :
      WellNested body -> WellNested cs ->
      WellNested (PushContext name :: body ++ PopContext name :: cs).

(** The actions a script of pushes and pops forwards to markAction. *)
Fixpoint actions (cs : list Call) : list GPUProfilerAction :=
  match cs with
  | [] => []
  | PushContext name :: later => mkAction OPEN_FRAME name :: actions later
  | PopContext name :: later => mkAction CLOSE_FRAME name :: actions later
  | _ :: later => actions later
  end.



Global Instance FrameRef_eq_dec : EqDecision FrameRef.
Proof. solve_decision. Defined.


(** The event made of a resolved event, given the frame of each name. *)
Definition toEvent (frameOf : string -> FrameRef)
  (event : GPUProfilerResolvedEvent) : SpeedscopeEvent :=
  mkEvent (speedscopeEventType (act_type (res_action event)))
          (frameOf (act_name (res_action event)))
          (res_timestamp event).

(** The frame table and its index agree: a name is mapped to [i] exactly
    when entry [i] of the table carries it. *)
Definition interned (frames : list SpeedscopeFrame)
  (frameToIndex : gmap string nat) : Prop :=
  forall n i, frameToIndex !! n = Some i <-> frames !! i = Some (mkFrame n).

(** A frame reference made for [name] is sound for the table [frames]: an
    index points at the entry named [name]; an inherited property is what
    a name of Object.prototype yields. *)
Definition refers (frames : list SpeedscopeFrame) (name : string)
  (frame : FrameRef) : Prop :=
  match frame with
  | FrameIndex i => frames !! i = Some (mkFrame name)
  | InheritedProperty key => key = name /\ name ∈ Object_prototype
  end.

(** A measurement is under way: the extension is there and a query is
    active. *)
Definition live (this : WebGLProfiler) : Prop :=
  is_Some (ext this) /\ is_Some (activeQuery this).

(** From [this] to [this'] the actions [acts] were queued, in order, and
    the context stack became [stack]; the rest is as it was. *)
Definition forwards (acts : list GPUProfilerAction) (stack : list string)
  (this this' : WebGLProfiler) : Prop :=
  live this' /\
  isRunning this' = isRunning this /\
  resolvedEvents this' = resolvedEvents this /\
  namedContextStack this' = stack /\
  map pend_action (eventsPendingTimestamps this') =
    map pend_action (eventsPendingTimestamps this) ++ acts.

(** What a successful start() leaves behind. *)
Definition started (this : WebGLProfiler) (gl : WebGLRenderingContext) : State :=
  (mkProfiler (ext this) (Some (S (gl_next_query gl))) true
     [mkPending (mkAction OPEN_FRAME "profile") (gl_next_query gl)] []
     (namedContextStack this ++ ["profile"]),
   beginQueryEXT (S (gl_next_query gl))
     (endQueryEXT
        (snd (createQueryEXT
           (beginQueryEXT (gl_next_query gl) (snd (createQueryEXT gl))))))).

(** ** Sample contexts *)

(** A desktop Chrome context: both extensions, a renderer off the denylist,
    every result available at once, query [q] lasting [q + 1] ns. *)
Definition chrome_context : WebGLRenderingContext :=
  mkGL ["EXT_disjoint_timer_query"; "WEBGL_debug_renderer_info"]
       "ANGLE (Intel Inc., Intel Iris Pro OpenGL Engine)" 0 None []
       (fun _ => true) (fun q => Z.of_nat q + 1)%Z [].

(** A context without EXT_disjoint_timer_query. *)
Definition firefox_context : WebGLRenderingContext :=
  mkGL ["WEBGL_debug_renderer_info"] "Mozilla" 0 None []
       (fun _ => true) (fun q => Z.of_nat q + 1)%Z [].

(** The denylisted card. *)
Definition gt750m_context : WebGLRenderingContext :=
  mkGL ["EXT_disjoint_timer_query"; "WEBGL_debug_renderer_info"]
       "NVIDIA GeForce GT 750M OpenGL Engine" 0 None []
       (fun _ => true) (fun q => Z.of_nat q + 1)%Z [].

(** The session of the README, shortened: one context around the work. *)
Definition example_session : list Call :=
  [Start; PushContext "a"; PopContext "a"; Stop].

Definition after_example_session : State :=
  snd (run example_session (new_WebGLProfiler chrome_context, chrome_context)).

(** The profile of the example session in [chrome_context], where query
    [q] lasts [q + 1] ns. *)
Definition example_file : SpeedscopeFile :=
  mkFile "https://www.Speedscopeapp/file-format-schema.json"
    [mkFrame "profile"; mkFrame "a"]
    [mkProfile EVENTED "GPU Profile" "nanoseconds" 0 10
       [mkEvent SpeedscopeOPEN_FRAME (FrameIndex 0) 1;
        mkEvent SpeedscopeOPEN_FRAME (FrameIndex 1) 3;
        mkEvent SpeedscopeCLOSE_FRAME (FrameIndex 1) 6;
        mkEvent SpeedscopeCLOSE_FRAME (FrameIndex 0) 10]].

(** A context whose GPU has not finished any query yet. *)
Definition stalled_context : WebGLRenderingContext :=
  mkGL ["EXT_disjoint_timer_query"; "WEBGL_debug_renderer_info"]
       "ANGLE (Intel Inc., Intel Iris Pro OpenGL Engine)" 0 None []
       (fun _ => false) (fun _ => 0%Z) [].

(** ** The download methods *)

(** async downloadWhenReady(): awaits the export, then offers the text for
    download through a temporary link.  The link and the click are effects
    on the document, outside the state modelled here; the completion is the
    export's, its value the document that is put in the Blob. *)
Definition downloadWhenReady
  (animationFrames : list (WebGLRenderingContext -> WebGLRenderingContext))
  (st : State) : option (Completion SpeedscopeFile) * State :=
  exportSpeedscopeProfile animationFrames st.

(** async stopAndDownload(): stop() runs at once; if it throws, the promise
    is rejected and nothing is awaited. *)
Definition stopAndDownload
  (animationFrames : list (WebGLRenderingContext -> WebGLRenderingContext))
  (st : State) : option (Completion SpeedscopeFile) * State :=
  match stop st with
  | (Throw e, st') => (Some (Throw e), st')
  | (Normal _, st') => downloadWhenReady animationFrames st'
  end.

(** ** Notions for the query handles *)

(** The handles the profiler holds: those of the pending entries, then the
    active one. *)
Definition handles (this : WebGLProfiler) : list WebGLTimerQueryEXT :=
  map pend_query (eventsPendingTimestamps this) ++
  match activeQuery this with
  | Some query => [query]
  | None => []
  end.

(** The handles are in order: the ones held are distinct and were all
    handed out by the context, none of them is deleted, and no handle was
    deleted twice. *)
Definition tidy (this : WebGLProfiler) (gl : WebGLRenderingContext) : Prop :=
  NoDup (handles this) /\
  Forall (fun query => query < gl_next_query gl) (handles this) /\
  Forall (fun query => query < gl_next_query gl) (gl_deleted gl) /\
  NoDup (gl_deleted gl) /\
  (forall query, query ∈ handles this -> query ∉ gl_deleted gl).

(** A handle the context handed out that is neither held nor deleted. *)
Definition orphan (query : WebGLTimerQueryEXT)
  (this : WebGLProfiler) (gl : WebGLRenderingContext) : Prop :=
  query < gl_next_query gl /\
  (query ∉ handles this) /\
  (query ∉ gl_deleted gl).

(** Work on the context that leaves timer queries alone (draw calls and the
    like): it creates, begins, ends and deletes none. *)
Definition foreign (work : WebGLRenderingContext -> WebGLRenderingContext) : Prop :=
  forall gl,
    gl_next_query (work gl) = gl_next_query gl /\
    gl_deleted (work gl) = gl_deleted gl /\
    gl_active_query (work gl) = gl_active_query gl.

Definition quiet (c : Call) : Prop :=
  match c with
  | GLWork work => foreign work
  | _ => True
  end.

(** The query the context is timing is the one the profiler holds as
    active, and there is one exactly while the profiler is running. *)
Definition in_sync (this : WebGLProfiler) (gl : WebGLRenderingContext) : Prop :=
  gl_active_query gl = activeQuery this /\ running_iff_active this.

(** ** Notions for sums and for the order of frames *)

(** The sum of the durations of the entries [ps]. *)
Definition totalElapsed (elapsed : WebGLTimerQueryEXT -> Z)
  (ps : list GPUProfilerEventPendingTimestamp) : Z :=
  foldr (fun p sum => (elapsed (pend_query p) + sum)%Z) 0%Z ps.

(** The names of [names] that are not in [seen], each at its first
    occurrence. *)
Fixpoint firstSeen (seen names : list string) : list string :=
  match names with
  | [] => []
  | name :: later =>
      if bool_decide (name ∈ seen) then firstSeen seen later
      else name :: firstSeen (seen ++ [name]) later
  end.

(** ** What the two lists represent *)

(** The actions the profiler holds, in order: those of the resolved list,
    then those of the pending queue.  Every action handed to markAction
    since start() is to appear here once. *)
Definition ledger (this : WebGLProfiler) : list GPUProfilerAction :=
  map res_action (resolvedEvents this) ++
  map pend_action (eventsPendingTimestamps this).

(** The frame reference an exported event carries for [name], given the
    frame table: for a name of Object.prototype the inherited property
    itself, for any other name the index of the table entry of that
    name. *)
Definition frameRefOf (frames : list SpeedscopeFrame) (name : string)
  (frame : FrameRef) : Prop :=
  if bool_decide (name ∈ Object_prototype)
  then frame = InheritedProperty name
  else exists i, frame = FrameIndex i /\ frames !! i = Some (mkFrame name).

(** Number.MAX_SAFE_INTEGER: up to it the integers are doubles, and a sum
    of two non-negative integers that does not exceed it is computed
    exactly. *)
Definition MAX_SAFE_INTEGER : Z := (2 ^ 53 - 1)%Z.

(** A session whose only context is named like a property that every
    object inherits. *)
Definition prototype_session : list Call :=
  [Start; PushContext "toString"; PopContext "toString"; Stop].

(** ** Closed forms of the small methods *)

Lemma markAction_eq action this gl :
  markAction action (this, gl) =
  match ext this with
  | None => (Normal tt, (this, gl))
  | Some _ =>
      match activeQuery this with
      | None => (Throw NoProfileActive, (this, gl))
      | Some oldQuery =>
          (Normal tt,
           (mkProfiler (ext this) (Some (gl_next_query gl)) (isRunning this)
              (eventsPendingTimestamps this ++ [mkPending action oldQuery])
              (resolvedEvents this) (namedContextStack this),
            beginQueryEXT (gl_next_query gl)
              (endQueryEXT (snd (createQueryEXT gl)))))
      end
  end.
Proof.
  destruct this as [[e|] [oldQuery|] running pending resolved stack];
    reflexivity.
Qed.

Lemma pushContext_eq name this gl :
  pushContext name (this, gl) =
  match markAction (mkAction OPEN_FRAME name) (this, gl) with
  | (Normal _, (this', gl')) =>
      (Normal tt,
       (set_namedContextStack (namedContextStack this' ++ [name]) this', gl'))
  | (Throw e, st') => (Throw e, st')
  end.
Proof.
  unfold pushContext, bind.
  destruct (markAction _ _) as [[[]|e] [this' gl']]; reflexivity.
Qed.

Lemma popContext_eq name this gl :
  popContext name (this, gl) =
  match namedContextStack this with
  | [] => (Throw PopOnEmptyStack, (this, gl))
  | _ :: _ =>
      let this' :=
        set_namedContextStack (removelast (namedContextStack this)) this in
      if bool_decide (last (namedContextStack this) = Some name)
      then markAction (mkAction CLOSE_FRAME name) (this', gl)
      else (Throw (PopMismatch (default "undefined" (last (namedContextStack this))) name),
            (this', gl))
  end.
Proof.
  destruct this as [e active running pending resolved [|top below]];
    [reflexivity|].
  unfold popContext, bind, getThis, namedContextStack_pop, throw.
  cbn [fst snd namedContextStack length Nat.eqb].
  destruct (bool_decide _); reflexivity.
Qed.

Lemma removelast_snoc {A} (l : list A) (x : A) : removelast (l ++ [x]) = l.
Proof. apply removelast_last. Qed.

Lemma set_namedContextStack_same this :
  set_namedContextStack (namedContextStack this) this = this.
Proof. destruct this; reflexivity. Qed.

(** ** popContext on an empty or mismatching stack *)

(** C2, as amended: when the stack is empty or its top is not [name],
    popContext(name) fails with a ProtocolError and forwards no action; the
    profiler and the context are as before, except that the context stack
    has lost its top element (an empty stack stays empty). *)
Theorem popContext_failure_drops_top this gl name :
  last (namedContextStack this) <> Some name ->
  exists e,
    classify e = ProtocolError /\
    popContext name (this, gl) =
      (Throw e,
       (set_namedContextStack (removelast (namedContextStack this)) this, gl)) /\
    (namedContextStack this = [] ->
     popContext name (this, gl) = (Throw e, (this, gl))).
Proof.
  intros Htop. rewrite popContext_eq.
  destruct (namedContextStack this) as [|top below] eqn:Hstack.
  - exists PopOnEmptyStack. cbn [removelast].
    rewrite <- Hstack, set_namedContextStack_same. auto.
  - rewrite bool_decide_eq_false_2 by exact Htop.
    eexists. split; [|split; [reflexivity|discriminate]]. reflexivity.
Qed.

Lemma popContext_failure_drops_top_witness :
  last ["profile"; "a"] <> Some "b" /\
  exists e,
    classify e = ProtocolError /\
    popContext "b" (mkProfiler (Some ExtObject) (Some 2) true [] [] ["profile"; "a"],
                    chrome_context) =
      (Throw e,
       (mkProfiler (Some ExtObject) (Some 2) true [] [] ["profile"], chrome_context)).
Proof.
  split; [simpl; discriminate|].
  destruct (popContext_failure_drops_top
              (mkProfiler (Some ExtObject) (Some 2) true [] [] ["profile"; "a"])
              chrome_context "b") as (e & Hclass & Heq & _).
  - simpl. discriminate.
  - exists e. split; [exact Hclass | exact Heq].
Defined.

(** C2, as stated, fails: after start() and pushContext("a") the stack is
    [profile; a]; popContext("b") raises and leaves [profile]. *)
Lemma popContext_mismatch_counterexample :
  let st := snd (run [Start; PushContext "a"]
                     (new_WebGLProfiler chrome_context, chrome_context)) in
  namedContextStack (fst st) = ["profile"; "a"] /\
  fst (popContext "b" st) = Throw (PopMismatch "a" "b") /\
  namedContextStack (fst (snd (popContext "b" st))) = ["profile"] /\
  namedContextStack (fst (snd (popContext "b" st))) <> namedContextStack (fst st).
Proof. vm_compute. repeat split; discriminate. Qed.

(** ** start() *)

Lemma start_eq this gl :
  start (this, gl) =
  match ext this with
  | None => (Throw ExtensionNotAvailable, (this, gl))
  | Some _ =>
      if isRunning this then (Throw AlreadyRunning, (this, gl))
      else if denylisted gl
      then (Throw (BuggyRenderer (gl_unmasked_renderer gl)), (this, gl))
      else
        pushContext "profile"
          (mkProfiler (ext this) (Some (gl_next_query gl)) true [] []
             (namedContextStack this),
           beginQueryEXT (gl_next_query gl) (snd (createQueryEXT gl)))
  end.
Proof.
  destruct this as [[e|] active [|] pending resolved stack]; try reflexivity.
  unfold start, denylisted, bind, getThis, glGet.
  cbn [fst snd ext isRunning].
  destruct (getExtension "WEBGL_debug_renderer_info" gl); cbn [andb].
  - unfold getParameter_UNMASKED_RENDERER_WEBGL.
    destruct (negb _); reflexivity.
  - reflexivity.
Qed.

Lemma start_outcome this gl :
  start (this, gl) =
  match ext this with
  | None => (Throw ExtensionNotAvailable, (this, gl))
  | Some _ =>
      if isRunning this then (Throw AlreadyRunning, (this, gl))
      else if denylisted gl
      then (Throw (BuggyRenderer (gl_unmasked_renderer gl)), (this, gl))
      else (Normal tt, started this gl)
  end.
Proof.
  rewrite start_eq.
  destruct (ext this) as [e|] eqn:Hext; [|reflexivity].
  destruct (isRunning this); [reflexivity|].
  destruct (denylisted gl); [reflexivity|].
  rewrite pushContext_eq, markAction_eq. cbn [ext activeQuery].
  unfold started. rewrite Hext. reflexivity.
Qed.

(** Case analysis along the guards of start(), after [start_outcome]. *)
Ltac start_guards this gl :=
  destruct (ext this) eqn:?;
    [destruct (isRunning this) eqn:?; [|destruct (denylisted gl) eqn:?]|].

(** C7: start() fails with UnsupportedError when the extension is missing,
    with InvalidStateError when the profiler is running (so a second
    start() without a stop() in between fails), and with
    UnsupportedHardwareError on the denylisted renderer.  The checks precede
    createQueryEXT: every failing start() leaves the profiler and the
    context as they were, so no query is created or begun. *)
Theorem start_failures this gl :
  (ext this = None ->
   start (this, gl) = (Throw ExtensionNotAvailable, (this, gl)) /\
   classify ExtensionNotAvailable = UnsupportedError) /\
  (is_Some (ext this) -> isRunning this = true ->
   start (this, gl) = (Throw AlreadyRunning, (this, gl)) /\
   classify AlreadyRunning = InvalidStateError) /\
  (is_Some (ext this) -> isRunning this = false ->
   getExtension "WEBGL_debug_renderer_info" gl = true ->
   indexOf (getParameter_UNMASKED_RENDERER_WEBGL gl) "NVIDIA GeForce GT 750M"
     <> (-1)%Z ->
   start (this, gl) =
     (Throw (BuggyRenderer (getParameter_UNMASKED_RENDERER_WEBGL gl)), (this, gl)) /\
   classify (BuggyRenderer (getParameter_UNMASKED_RENDERER_WEBGL gl)) =
     UnsupportedHardwareError) /\
  (forall st', start (this, gl) = (Normal tt, st') ->
   start st' = (Throw AlreadyRunning, st')) /\
  (forall e st', start (this, gl) = (Throw e, st') ->
   st' = (this, gl) /\
   gl_next_query (snd st') = gl_next_query gl /\
   gl_active_query (snd st') = gl_active_query gl /\
   activeQuery (fst st') = activeQuery this).
Proof.
  assert (Hfail : forall e st', start (this, gl) = (Throw e, st') -> st' = (this, gl)).
  { intros e st'. rewrite start_outcome.
    start_guards this gl; congruence. }
  split; [|split; [|split; [|split]]].
  - intros Hext. rewrite start_outcome, Hext. split; reflexivity.
  - intros [e Hext] Hrun. rewrite start_outcome, Hext, Hrun. split; reflexivity.
  - intros [e Hext] Hrun Hinfo Hidx. rewrite start_outcome, Hext, Hrun.
    unfold denylisted. rewrite Hinfo. cbn [andb].
    apply Z.eqb_neq in Hidx. rewrite Hidx. split; reflexivity.
  - intros st'. rewrite start_outcome.
    destruct (ext this) as [e|] eqn:Hext; [|discriminate].
    destruct (isRunning this); [discriminate|].
    destruct (denylisted gl); [discriminate|].
    intros [= <-]. unfold started. rewrite start_outcome.
    cbn [ext isRunning]. rewrite Hext. reflexivity.
  - intros e st' Hthrow. rewrite (Hfail e st' Hthrow). repeat split.
Qed.

Lemma start_failures_witness :
  start (new_WebGLProfiler firefox_context, firefox_context) =
    (Throw ExtensionNotAvailable,
     (new_WebGLProfiler firefox_context, firefox_context)) /\
  start (started (new_WebGLProfiler chrome_context) chrome_context) =
    (Throw AlreadyRunning,
     started (new_WebGLProfiler chrome_context) chrome_context) /\
  start (new_WebGLProfiler gt750m_context, gt750m_context) =
    (Throw (BuggyRenderer "NVIDIA GeForce GT 750M OpenGL Engine"),
     (new_WebGLProfiler gt750m_context, gt750m_context)) /\
  start (snd (start (new_WebGLProfiler chrome_context, chrome_context))) =
    (Throw AlreadyRunning,
     snd (start (new_WebGLProfiler chrome_context, chrome_context))).
Proof.
  split; [|split; [|split]].
  - apply (proj1 (start_failures (new_WebGLProfiler firefox_context) firefox_context)).
    reflexivity.
  - apply (proj1 (proj2 (start_failures
             (fst (started (new_WebGLProfiler chrome_context) chrome_context))
             (snd (started (new_WebGLProfiler chrome_context) chrome_context))))).
    + exists ExtObject. reflexivity.
    + reflexivity.
  - apply (proj1 (proj2 (proj2 (start_failures
             (new_WebGLProfiler gt750m_context) gt750m_context)))).
    + exists ExtObject. reflexivity.
    + reflexivity.
    + reflexivity.
    + vm_compute. discriminate.
  - apply (proj1 (proj2 (proj2 (proj2 (start_failures
             (new_WebGLProfiler chrome_context) chrome_context))))).
    vm_compute. reflexivity.
Defined.

(** ** resolveEventsIfPossible *)

Lemma polled_0 gl : polled 0 [] gl = gl.
Proof. destruct gl; reflexivity. Qed.

Lemma set_resolvedEvents_same this :
  set_resolvedEvents (resolvedEvents this) this = this.
Proof. destruct this; reflexivity. Qed.

Lemma set_eventsPendingTimestamps_same this :
  set_eventsPendingTimestamps (eventsPendingTimestamps this) this = this.
Proof. destruct this; reflexivity. Qed.

Lemma getParameter_GPU_DISJOINT_EXT_eq gl :
  getParameter_GPU_DISJOINT_EXT gl =
  (default false (head (gl_disjoint gl)), polled 1 [] gl).
Proof. destruct gl as [? ? ? ? ? ? ? [|b later]]; reflexivity. Qed.

(** One turn of the loop on an available entry whose disjoint reading is
    false. *)
Lemma resolveLoop_step p later i this gl :
  available gl p ->
  default false (head (gl_disjoint gl)) = false ->
  resolveLoop (p :: later) i (this, gl) =
  resolveLoop later (S i)
    (set_resolvedEvents (resolveAll (gl_result gl) (resolvedEvents this) [p]) this,
     polled 1 [pend_query p] gl).
Proof.
  intros Hav Hdis. unfold available in Hav.
  cbn [resolveLoop]. unfold bind at 1. unfold glGet at 1.
  unfold getQueryObjectEXT_QUERY_RESULT_AVAILABLE_EXT. cbn [snd].
  rewrite Hav. cbn [negb].
  unfold bind at 1. unfold glCall at 1. cbn [snd fst].
  rewrite getParameter_GPU_DISJOINT_EXT_eq, Hdis.
  destruct gl as [exts rend next act del av res script]. reflexivity.
Qed.

Lemma resolveLoop_unavailable p later i this gl :
  ~ available gl p ->
  resolveLoop (p :: later) i (this, gl) = (Normal i, (this, gl)).
Proof.
  intros Hav. unfold available in Hav. apply not_true_is_false in Hav.
  cbn [resolveLoop]. unfold bind, glGet.
  unfold getQueryObjectEXT_QUERY_RESULT_AVAILABLE_EXT. cbn [snd].
  rewrite Hav. reflexivity.
Qed.

Lemma resolveLoop_flagged p later i this gl :
  available gl p ->
  default false (head (gl_disjoint gl)) = true ->
  resolveLoop (p :: later) i (this, gl) =
  (Throw GpuDisjoint, (this, polled 1 [] gl)).
Proof.
  intros Hav Hdis. unfold available in Hav.
  cbn [resolveLoop]. unfold bind at 1. unfold glGet at 1.
  unfold getQueryObjectEXT_QUERY_RESULT_AVAILABLE_EXT. cbn [snd].
  rewrite Hav. cbn [negb].
  unfold bind at 1. unfold glCall at 1. cbn [snd fst].
  rewrite getParameter_GPU_DISJOINT_EXT_eq, Hdis. reflexivity.
Qed.

Lemma polled_polled n m qs qs' gl :
  polled n qs (polled m qs' gl) = polled (m + n) (qs' ++ qs) gl.
Proof.
  unfold polled; cbn. rewrite drop_drop, rev_app_distr, <- app_assoc.
  reflexivity.
Qed.

Lemma head_script_false n (script : list bool) :
  Forall (eq false) (take (S n) script) ->
  default false (head script) = false /\
  Forall (eq false) (take n (drop 1 script)).
Proof.
  destruct script as [|b later]; cbn.
  - split; [reflexivity|]. rewrite take_nil. constructor.
  - intros H. inversion H; subst. rewrite drop_0. auto.
Qed.

(** The walk over a prefix of available entries with clean disjoint
    readings, stopping at the end of the queue or at the first entry whose
    result is not there yet. *)
Lemma resolveLoop_normal pre rest :
  forall i this gl,
  Forall (available gl) pre ->
  (forall p, head rest = Some p -> ~ available gl p) ->
  Forall (eq false) (take (length pre) (gl_disjoint gl)) ->
  resolveLoop (pre ++ rest) i (this, gl) =
  (Normal (i + length pre),
   (set_resolvedEvents (resolveAll (gl_result gl) (resolvedEvents this) pre) this,
    polled (length pre) (map pend_query pre) gl)).
Proof.
  induction pre as [|p pre IH]; intros i this gl Hav Hstop Hclean.
  - cbn [app length map resolveAll].
    rewrite Nat.add_0_r, polled_0, set_resolvedEvents_same.
    destruct rest as [|p rest]; [reflexivity|].
    apply resolveLoop_unavailable. apply Hstop. reflexivity.
  - apply Forall_cons in Hav as [Hp Hav].
    cbn [length] in Hclean. apply head_script_false in Hclean as [Hhead Hclean].
    cbn [app]. rewrite resolveLoop_step by assumption.
    rewrite IH.
    + cbn [length map]. rewrite polled_polled.
      replace (i + S (length pre)) with (S i + length pre) by lia.
      reflexivity.
    + eapply Forall_impl; [exact Hav|]. intros q Hq. exact Hq.
    + exact Hstop.
    + exact Hclean.
Qed.

(** The walk over a prefix of available entries with clean readings, ended
    by a disjoint reading at the next available entry. *)
Lemma resolveLoop_disjoint pre p rest :
  forall i this gl later,
  Forall (available gl) pre ->
  available gl p ->
  gl_disjoint gl = replicate (length pre) false ++ true :: later ->
  resolveLoop (pre ++ p :: rest) i (this, gl) =
  (Throw GpuDisjoint,
   (set_resolvedEvents (resolveAll (gl_result gl) (resolvedEvents this) pre) this,
    polled (S (length pre)) (map pend_query pre) gl)).
Proof.
  induction pre as [|p0 pre IH]; intros i this gl later Hav Hp Hscript.
  - cbn [app length map resolveAll]. rewrite set_resolvedEvents_same.
    apply resolveLoop_flagged; [exact Hp|]. rewrite Hscript. reflexivity.
  - apply Forall_cons in Hav as [Hp0 Hav].
    cbn [app]. rewrite resolveLoop_step; [|exact Hp0|rewrite Hscript; reflexivity].
    rewrite (IH _ _ _ later).
    + cbn [length map]. rewrite polled_polled. reflexivity.
    + exact Hav.
    + exact Hp.
    + cbn [polled gl_disjoint]. rewrite Hscript. reflexivity.
Qed.

Lemma lastTimestamp_snoc resolved event :
  lastTimestamp (resolved ++ [event]) = res_timestamp event.
Proof. unfold lastTimestamp. rewrite last_snoc. reflexivity. Qed.

Lemma resolveAll_stamp elapsed ps :
  forall resolved,
  resolveAll elapsed resolved ps =
  resolved ++ stamp elapsed (lastTimestamp resolved) ps.
Proof.
  induction ps as [|p ps IH]; intros resolved; cbn [resolveAll stamp].
  - rewrite app_nil_r. reflexivity.
  - rewrite IH, lastTimestamp_snoc, <- app_assoc. reflexivity.
Qed.

Lemma stamp_length elapsed ps : forall t, length (stamp elapsed t ps) = length ps.
Proof. induction ps as [|p ps IH]; intros t; cbn; [|rewrite IH]; reflexivity. Qed.

Lemma stamp_actions elapsed ps :
  forall t, map res_action (stamp elapsed t ps) = map pend_action ps.
Proof. induction ps as [|p ps IH]; intros t; cbn; [|rewrite IH]; reflexivity. Qed.

(** Each appended event is stamped with the timestamp of the event before
    it in the resolved list (0 if there is none) plus its own duration. *)
Lemma stamp_lookup elapsed ps :
  forall resolved j r p,
  stamp elapsed (lastTimestamp resolved) ps !! j = Some r ->
  ps !! j = Some p ->
  res_action r = pend_action p /\
  res_timestamp r =
    (lastTimestamp
       (take (length resolved + j)
          (resolved ++ stamp elapsed (lastTimestamp resolved) ps))
     + elapsed (pend_query p))%Z.
Proof.
  induction ps as [|p0 ps IH]; intros resolved j r p Hr Hp; [discriminate|].
  destruct j as [|j].
  - cbn in Hr, Hp. injection Hr as <-. injection Hp as <-.
    rewrite Nat.add_0_r, take_app_length. split; reflexivity.
  - cbn [stamp] in *. cbn [lookup list_lookup] in Hr, Hp.
    set (event := mkResolved (pend_action p0)
                    (lastTimestamp resolved + elapsed (pend_query p0))) in *.
    assert (Hevent : (lastTimestamp resolved + elapsed (pend_query p0))%Z =
                     lastTimestamp (resolved ++ [event]))
      by (rewrite lastTimestamp_snoc; reflexivity).
    rewrite Hevent in Hr |- *.
    destruct (IH _ _ _ _ Hr Hp) as [Hact Hts]. split; [exact Hact|].
    rewrite Hts. rewrite length_app. cbn [length].
    rewrite <- app_assoc.
    replace (length resolved + 1 + j) with (length resolved + S j) by lia.
    reflexivity.
Qed.

Lemma resolveEventsIfPossible_eq this gl :
  resolveEventsIfPossible (this, gl) =
  match ext this with
  | None => (Normal tt, (this, gl))
  | Some _ =>
      match resolveLoop (eventsPendingTimestamps this) 0 (this, gl) with
      | (Normal i, (this', gl')) =>
          (Normal tt,
           (if (0 <? i)%nat
            then set_eventsPendingTimestamps
                   (drop i (eventsPendingTimestamps this')) this'
            else this', gl'))
      | (Throw e, st') => (Throw e, st')
      end
  end.
Proof.
  unfold resolveEventsIfPossible, bind, getThis. cbn [fst].
  destruct (ext this); [|reflexivity].
  destruct (resolveLoop _ _ _) as [[i|err] [this' gl']]; [|reflexivity].
  destruct (0 <? i)%nat; reflexivity.
Qed.

Lemma resolveEventsIfPossible_normal this gl pre rest :
  is_Some (ext this) ->
  eventsPendingTimestamps this = pre ++ rest ->
  Forall (available gl) pre ->
  (forall p, head rest = Some p -> ~ available gl p) ->
  Forall (eq false) (take (length pre) (gl_disjoint gl)) ->
  resolveEventsIfPossible (this, gl) =
  (Normal tt,
   (mkProfiler (ext this) (activeQuery this) (isRunning this) rest
      (resolvedEvents this ++ stamp (gl_result gl) (lastTimestamp (resolvedEvents this)) pre)
      (namedContextStack this),
    polled (length pre) (map pend_query pre) gl)).
Proof.
  intros [e Hext] Hpending Hav Hstop Hclean.
  rewrite resolveEventsIfPossible_eq, Hext, Hpending.
  rewrite resolveLoop_normal by assumption.
  rewrite resolveAll_stamp. cbn [Nat.add].
  destruct pre as [|p pre].
  - cbn [length Nat.ltb Nat.leb stamp]. rewrite app_nil_r.
    cbn [app] in Hpending. rewrite <- Hpending, <- Hext.
    rewrite set_resolvedEvents_same. destruct this; reflexivity.
  - cbn [length Nat.ltb Nat.leb]. unfold set_eventsPendingTimestamps.
    cbn [ext activeQuery isRunning resolvedEvents namedContextStack
         eventsPendingTimestamps set_resolvedEvents].
    rewrite Hpending, Hext.
    change (S (length pre)) with (length (p :: pre)).
    rewrite drop_app_length. reflexivity.
Qed.

Lemma resolveEventsIfPossible_disjoint this gl pre p rest later :
  is_Some (ext this) ->
  eventsPendingTimestamps this = pre ++ p :: rest ->
  Forall (available gl) pre ->
  available gl p ->
  gl_disjoint gl = replicate (length pre) false ++ true :: later ->
  resolveEventsIfPossible (this, gl) =
  (Throw GpuDisjoint,
   (set_resolvedEvents
      (resolvedEvents this ++ stamp (gl_result gl) (lastTimestamp (resolvedEvents this)) pre)
      this,
    polled (S (length pre)) (map pend_query pre) gl)).
Proof.
  intros [e Hext] Hpending Hav Hp Hscript.
  rewrite resolveEventsIfPossible_eq, Hext, Hpending.
  rewrite (resolveLoop_disjoint _ _ _ _ _ _ later) by assumption.
  rewrite resolveAll_stamp. reflexivity.
Qed.

(** Every queue splits into its longest prefix of available entries and the
    rest. *)
Lemma available_prefix gl ps :
  exists pre rest,
    ps = pre ++ rest /\
    Forall (available gl) pre /\
    (forall p, head rest = Some p -> ~ available gl p).
Proof.
  induction ps as [|p ps (pre & rest & Heq & Hav & Hstop)].
  - exists [], []. repeat split; [constructor|discriminate].
  - destruct (gl_result_available gl (pend_query p)) eqn:Hp.
    + exists (p :: pre), rest. subst ps. repeat split; [|exact Hstop].
      constructor; assumption.
    + exists [], (p :: ps). repeat split; [constructor|].
      intros q [= <-]. unfold available. rewrite Hp. discriminate.
Qed.

(** The first [n] readings of a script are clean, or one of them is the
    first disjoint reading. *)
Lemma script_cases n :
  forall script : list bool,
  Forall (eq false) (take n script) \/
  exists d later, d < n /\ script = replicate d false ++ true :: later.
Proof.
  induction n as [|n IH]; intros script.
  - left. rewrite take_0. constructor.
  - destruct script as [|[|] script].
    + left. constructor.
    + right. exists 0, script. split; [lia|reflexivity].
    + destruct (IH script) as [Hclean|(d & later & Hd & ->)].
      * left. cbn. constructor; [reflexivity|exact Hclean].
      * right. exists (S d), later. split; [lia|reflexivity].
Qed.

(** The two ways a call can end: normally, the consumed prefix moved from
    the pending queue to the resolved list; or by the disjoint error, the
    consumed prefix appended to the resolved list and the queue untouched. *)
Lemma resolveEventsIfPossible_cases this gl :
  exists pre rest,
    eventsPendingTimestamps this = pre ++ rest /\
    Forall (available gl) pre /\
    (resolveEventsIfPossible (this, gl) =
       (Normal tt,
        (mkProfiler (ext this) (activeQuery this) (isRunning this) rest
           (resolvedEvents this ++
              stamp (gl_result gl) (lastTimestamp (resolvedEvents this)) pre)
           (namedContextStack this),
         polled (length pre) (map pend_query pre) gl))
     \/
     rest <> [] /\
     resolveEventsIfPossible (this, gl) =
       (Throw GpuDisjoint,
        (set_resolvedEvents
           (resolvedEvents this ++
              stamp (gl_result gl) (lastTimestamp (resolvedEvents this)) pre)
           this,
         polled (S (length pre)) (map pend_query pre) gl))).
Proof.
  destruct (ext this) as [e|] eqn:Hext.
  - destruct (available_prefix gl (eventsPendingTimestamps this))
      as (pre & rest & Heq & Hav & Hstop).
    destruct (script_cases (length pre) (gl_disjoint gl))
      as [Hclean|(d & later & Hd & Hscript)].
    + exists pre, rest. split; [exact Heq|]. split; [exact Hav|]. left.
      rewrite <- Hext. apply resolveEventsIfPossible_normal; eauto.
    + destruct (lookup_lt_is_Some_2 pre d Hd) as [p Hp].
      pose proof (take_drop_middle _ _ _ Hp) as Hsplit.
      exists (take d pre), (p :: drop (S d) pre ++ rest).
      assert (Hlen : length (take d pre) = d) by (rewrite length_take; lia).
      rewrite <- Hsplit in Hav. apply Forall_app in Hav as [Hav1 Hav2].
      apply Forall_cons in Hav2 as [Hp' _].
      split; [|split; [exact Hav1|right; split; [discriminate|]]].
      * rewrite Heq, <- Hsplit at 1. rewrite <- !app_assoc. reflexivity.
      * eapply resolveEventsIfPossible_disjoint; eauto.
        -- rewrite Heq. rewrite <- Hsplit at 1. rewrite <- !app_assoc. reflexivity.
        -- rewrite Hlen. exact Hscript.
  - exists [], (eventsPendingTimestamps this).
    split; [reflexivity|]. split; [constructor|]. left.
    rewrite resolveEventsIfPossible_eq, Hext. cbn [stamp length map].
    rewrite app_nil_r, polled_0, <- Hext. destruct this; reflexivity.
Qed.

(** C3, as amended: a call that returns normally removes from the front of
    the pending queue exactly the entries it consumed, those whose events
    it appended in order to the resolved list; the actions of the resolved
    list followed by those of the pending queue are then the same sequence
    as before the call, so what was represented once before the call is
    represented once after it.  A call that raises (the disjoint error)
    removes nothing: the queue is as before the call although the entries
    ahead of the failing one have been appended to the resolved list, and
    these are represented twice. *)
Theorem resolveEventsIfPossible_removes_consumed_on_return this gl :
  exists c this' gl' consumed rest new,
    resolveEventsIfPossible (this, gl) = (c, (this', gl')) /\
    eventsPendingTimestamps this = consumed ++ rest /\
    resolvedEvents this' = resolvedEvents this ++ new /\
    map res_action new = map pend_action consumed /\
    (c = Normal tt /\
     eventsPendingTimestamps this' = rest /\
     ledger this' = ledger this
     \/
     c = Throw GpuDisjoint /\
     eventsPendingTimestamps this' = eventsPendingTimestamps this /\
     ledger this' =
       map res_action (resolvedEvents this) ++
       map pend_action consumed ++
       map pend_action consumed ++ map pend_action rest).
Proof.
  destruct (resolveEventsIfPossible_cases this gl)
    as (pre & rest & Heq & _ & [Hcall|[_ Hcall]]).
  - eexists _, _, _, pre, rest, _. split; [exact Hcall|].
    unfold ledger. cbn [resolvedEvents eventsPendingTimestamps].
    split; [exact Heq|]. split; [reflexivity|].
    split; [apply stamp_actions|]. left.
    split; [reflexivity|]. split; [reflexivity|].
    rewrite Heq, !map_app, stamp_actions, <- app_assoc. reflexivity.
  - eexists _, _, _, pre, rest, _. split; [exact Hcall|].
    unfold ledger.
    cbn [set_resolvedEvents resolvedEvents eventsPendingTimestamps].
    split; [exact Heq|]. split; [reflexivity|].
    split; [apply stamp_actions|]. right.
    split; [reflexivity|]. split; [reflexivity|].
    rewrite Heq, !map_app, stamp_actions, <- !app_assoc. reflexivity.
Qed.

(** C3, as stated, fails: the four entries of the example session are
    available, the second disjoint reading is true; the call raises with
    the first entry both resolved (its query deleted) and still pending. *)
Lemma resolveEventsIfPossible_raise_counterexample :
  let st := (fst after_example_session,
             set_gl_disjoint [false; true] (snd after_example_session)) in
  fst (resolveEventsIfPossible st) = Throw GpuDisjoint /\
  map res_action (resolvedEvents (fst (snd (resolveEventsIfPossible st)))) =
    [mkAction OPEN_FRAME "profile"] /\
  eventsPendingTimestamps (fst (snd (resolveEventsIfPossible st))) =
    [mkPending (mkAction OPEN_FRAME "profile") 0;
     mkPending (mkAction OPEN_FRAME "a") 1;
     mkPending (mkAction CLOSE_FRAME "a") 2;
     mkPending (mkAction CLOSE_FRAME "profile") 3] /\
  gl_deleted (snd (snd (resolveEventsIfPossible st))) = [0].
Proof. vm_compute. repeat split. Qed.

(** C4: with an empty pending queue the call changes nothing.  Otherwise,
    when the queue is [pre ++ rest] with every entry of [pre] available and
    [rest] empty or headed by an entry that is not, and no disjoint
    condition is read along [pre], the call returns normally having
    resolved exactly [pre], in order: [rest] is what stays pending, the
    resolved list is extended by one event per entry of [pre] with that
    entry's action, each stamped with the timestamp of the event before it
    in the resolved list (0 if there is none) plus the entry's duration, and
    the queries of [pre] are released. *)
Theorem resolveEventsIfPossible_resolves_available_prefix this gl :
  (eventsPendingTimestamps this = [] ->
   resolveEventsIfPossible (this, gl) = (Normal tt, (this, gl))) /\
  (forall pre rest,
     is_Some (ext this) ->
     eventsPendingTimestamps this = pre ++ rest ->
     Forall (available gl) pre ->
     (forall p, head rest = Some p -> ~ available gl p) ->
     Forall (eq false) (take (length pre) (gl_disjoint gl)) ->
     exists new gl',
       resolveEventsIfPossible (this, gl) =
         (Normal tt,
          (mkProfiler (ext this) (activeQuery this) (isRunning this) rest
             (resolvedEvents this ++ new) (namedContextStack this), gl')) /\
       map res_action new = map pend_action pre /\
       (forall j r p,
          new !! j = Some r -> pre !! j = Some p ->
          res_timestamp r =
            (lastTimestamp
               (take (length (resolvedEvents this) + j)
                     (resolvedEvents this ++ new))
             + gl_result gl (pend_query p))%Z) /\
       gl_deleted gl' = rev (map pend_query pre) ++ gl_deleted gl).
Proof.
  split.
  - intros Hempty. rewrite resolveEventsIfPossible_eq, Hempty.
    destruct (ext this); reflexivity.
  - intros pre rest Hext Heq Hav Hstop Hclean.
    eexists _, _. split; [|split; [|split]].
    + apply resolveEventsIfPossible_normal; eassumption.
    + apply stamp_actions.
    + intros j r p Hr Hp.
      apply (stamp_lookup _ _ _ _ _ _ Hr Hp).
    + reflexivity.
Qed.

Lemma resolveEventsIfPossible_resolves_available_prefix_witness :
  let this := fst after_example_session in
  let gl := snd after_example_session in
  eventsPendingTimestamps this = eventsPendingTimestamps this ++ [] /\
  exists new gl',
    resolveEventsIfPossible (this, gl) =
      (Normal tt,
       (mkProfiler (ext this) (activeQuery this) (isRunning this) []
          (resolvedEvents this ++ new) (namedContextStack this), gl')) /\
    map res_action new = map pend_action (eventsPendingTimestamps this).
Proof.
  intros this gl. split; [vm_compute; reflexivity|].
  destruct (proj2 (resolveEventsIfPossible_resolves_available_prefix this gl)
              (eventsPendingTimestamps this) [])
    as (new & gl' & Hcall & Hact & _).
  - exists ExtObject. vm_compute. reflexivity.
  - vm_compute. reflexivity.
  - vm_compute. repeat constructor.
  - intros p Hp. discriminate Hp.
  - vm_compute. constructor.
  - exists new, gl'. split; [exact Hcall|exact Hact].
Defined.

(** C6: when the entry [p] of the pending queue is reached (all entries
    before it are available and were read without a disjoint condition),
    its result is available and the disjoint flag reads true, the call
    fails with the UnreliableTimingError; the resolved list has grown by the
    entries before [p] only, so neither [p] nor any entry after it is
    resolved, and their queries are not released. *)
Theorem resolveEventsIfPossible_disjoint_stops this gl pre p rest later :
  is_Some (ext this) ->
  eventsPendingTimestamps this = pre ++ p :: rest ->
  Forall (available gl) pre ->
  available gl p ->
  gl_disjoint gl = replicate (length pre) false ++ true :: later ->
  exists new gl',
    resolveEventsIfPossible (this, gl) =
      (Throw GpuDisjoint, (set_resolvedEvents (resolvedEvents this ++ new) this, gl')) /\
    classify GpuDisjoint = UnreliableTimingError /\
    map res_action new = map pend_action pre /\
    length new = length pre /\
    gl_deleted gl' = rev (map pend_query pre) ++ gl_deleted gl.
Proof.
  intros Hext Heq Hav Hp Hscript.
  eexists _, _. split; [|split; [|split; [|split]]].
  - eapply resolveEventsIfPossible_disjoint; eassumption.
  - reflexivity.
  - apply stamp_actions.
  - apply stamp_length.
  - reflexivity.
Qed.

Lemma resolveEventsIfPossible_disjoint_stops_witness :
  let this := fst after_example_session in
  let gl := set_gl_disjoint [false; false; true] (snd after_example_session) in
  gl_disjoint gl = replicate 2 false ++ [true] /\
  exists new gl',
    resolveEventsIfPossible (this, gl) =
      (Throw GpuDisjoint, (set_resolvedEvents (resolvedEvents this ++ new) this, gl')) /\
    map res_action new = [mkAction OPEN_FRAME "profile"; mkAction OPEN_FRAME "a"] /\
    gl_deleted gl' = [1; 0].
Proof.
  intros this gl. split; [vm_compute; reflexivity|].
  destruct (resolveEventsIfPossible_disjoint_stops this gl
              [mkPending (mkAction OPEN_FRAME "profile") 0;
               mkPending (mkAction OPEN_FRAME "a") 1]
              (mkPending (mkAction CLOSE_FRAME "a") 2)
              [mkPending (mkAction CLOSE_FRAME "profile") 3] [])
    as (new & gl' & Hcall & _ & Hact & _ & Hdel).
  - exists ExtObject. vm_compute. reflexivity.
  - vm_compute. reflexivity.
  - vm_compute. repeat constructor.
  - vm_compute. reflexivity.
  - vm_compute. reflexivity.
  - exists new, gl'. split; [exact Hcall|]. split; [exact Hact|exact Hdel].
Defined.

(** ** markAction without an active query *)

(** C8, as amended: with the extension, markAction fails with a
    ProtocolError whenever no query is active and changes nothing; in such
    a state pushContext raises the same error and changes nothing, and
    popContext raises a ProtocolError without forwarding an action, the
    context stack having lost its top element if it had one.  Without the
    extension markAction returns normally and does nothing. *)
Theorem markAction_without_active_query this gl action :
  (ext this = None ->
   markAction action (this, gl) = (Normal tt, (this, gl))) /\
  (is_Some (ext this) -> activeQuery this = None ->
   markAction action (this, gl) = (Throw NoProfileActive, (this, gl)) /\
   classify NoProfileActive = ProtocolError /\
   (forall name,
      pushContext name (this, gl) = (Throw NoProfileActive, (this, gl))) /\
   (forall name, exists e,
      classify e = ProtocolError /\
      popContext name (this, gl) =
        (Throw e,
         (set_namedContextStack (removelast (namedContextStack this)) this,
          gl)))).
Proof.
  split.
  - intros Hext. rewrite markAction_eq, Hext. reflexivity.
  - intros [e Hext] Hactive.
    split; [rewrite markAction_eq, Hext, Hactive; reflexivity|].
    split; [reflexivity|]. split.
    + intros name. rewrite pushContext_eq, markAction_eq, Hext, Hactive.
      reflexivity.
    + intros name. rewrite popContext_eq.
      destruct (namedContextStack this) as [|top below] eqn:Hstack.
      * exists PopOnEmptyStack. split; [reflexivity|].
        cbn [removelast]. rewrite <- Hstack, set_namedContextStack_same.
        reflexivity.
      * cbv zeta. destruct (bool_decide _).
        -- exists NoProfileActive. split; [reflexivity|].
           rewrite markAction_eq. cbn [ext activeQuery set_namedContextStack].
           rewrite Hext, Hactive. reflexivity.
        -- eexists. split; [|reflexivity]. reflexivity.
Qed.

Lemma markAction_without_active_query_witness :
  let this := new_WebGLProfiler chrome_context in
  activeQuery this = None /\
  markAction (mkAction OPEN_FRAME "a") (this, chrome_context) =
    (Throw NoProfileActive, (this, chrome_context)) /\
  pushContext "a" (this, chrome_context) =
    (Throw NoProfileActive, (this, chrome_context)) /\
  markAction (mkAction OPEN_FRAME "a")
    (new_WebGLProfiler firefox_context, firefox_context) =
    (Normal tt, (new_WebGLProfiler firefox_context, firefox_context)).
Proof.
  intros this. split; [reflexivity|].
  destruct (proj2 (markAction_without_active_query this chrome_context
                     (mkAction OPEN_FRAME "a")))
    as (Hmark & _ & Hpush & _).
  - exists ExtObject. reflexivity.
  - reflexivity.
  - split; [exact Hmark|]. split; [exact (Hpush "a")|].
    apply (proj1 (markAction_without_active_query
                    (new_WebGLProfiler firefox_context) firefox_context
                    (mkAction OPEN_FRAME "a"))).
    reflexivity.
Defined.

(** C8, as stated, fails.  A profiler built on a context without the
    extension has no active query, yet markAction returns normally and
    pushContext pushes the name.  With the extension, after
    start(), pushContext("profile"), stop() no query is active and the
    stack still holds "profile": popContext("profile") raises, but only
    after removing it. *)
Lemma markAction_silent_counterexample :
  let this := new_WebGLProfiler firefox_context in
  let st := snd (run [Start; PushContext "profile"; Stop]
                     (new_WebGLProfiler chrome_context, chrome_context)) in
  activeQuery this = None /\
  markAction (mkAction OPEN_FRAME "a") (this, firefox_context) =
    (Normal tt, (this, firefox_context)) /\
  pushContext "a" (this, firefox_context) =
    (Normal tt, (set_namedContextStack ["a"] this, firefox_context)) /\
  activeQuery (fst st) = None /\
  namedContextStack (fst st) = ["profile"] /\
  fst (popContext "profile" st) = Throw NoProfileActive /\
  namedContextStack (fst (snd (popContext "profile" st))) = [].
Proof. vm_compute. repeat split. Qed.

(** ** The running flag and the active query *)

Lemma preserves_bind {A B} P (m : M A) (k : A -> M B) :
  preserves P m -> (forall a, preserves P (k a)) -> preserves P (bind m k).
Proof.
  intros Hm Hk this gl HP. unfold bind.
  specialize (Hm this gl HP).
  destruct (m (this, gl)) as [[a|e] [this' gl']]; [|exact Hm].
  apply Hk. exact Hm.
Qed.

Lemma markAction_fields action this gl :
  let this' := fst (snd (markAction action (this, gl))) in
  ext this' = ext this /\
  isRunning this' = isRunning this /\
  resolvedEvents this' = resolvedEvents this /\
  namedContextStack this' = namedContextStack this /\
  (is_Some (activeQuery this') <-> is_Some (activeQuery this)).
Proof.
  rewrite markAction_eq.
  destruct (ext this) eqn:Hext; [destruct (activeQuery this) eqn:Hactive|];
    cbn; rewrite ?Hext, ?Hactive; repeat split; intros; eauto.
Qed.

Lemma markAction_preserves action : preserves running_iff_active (markAction action).
Proof.
  intros this gl. unfold running_iff_active.
  destruct (markAction_fields action this gl) as (_ & -> & _ & _ & ->). auto.
Qed.

Lemma pushContext_preserves name : preserves running_iff_active (pushContext name).
Proof.
  unfold pushContext. apply preserves_bind; [apply markAction_preserves|].
  intros _ this gl H. exact H.
Qed.

Lemma popContext_preserves name : preserves running_iff_active (popContext name).
Proof.
  intros this gl H. rewrite popContext_eq.
  destruct (namedContextStack this); [exact H|]. cbv zeta.
  destruct (bool_decide _); [|exact H].
  apply markAction_preserves. exact H.
Qed.

Lemma start_preserves : preserves running_iff_active start.
Proof.
  intros this gl H. rewrite start_outcome.
  start_guards this gl; try exact H.
  unfold running_iff_active. cbn. split; eauto.
Qed.

Lemma resolveEventsIfPossible_fields this gl :
  let this' := fst (snd (resolveEventsIfPossible (this, gl))) in
  ext this' = ext this /\
  isRunning this' = isRunning this /\
  activeQuery this' = activeQuery this /\
  namedContextStack this' = namedContextStack this.
Proof.
  destruct (resolveEventsIfPossible_cases this gl)
    as (pre & rest & _ & _ & [-> | [_ ->]]); cbn; auto.
Qed.

Lemma resolveEventsIfPossible_preserves :
  preserves running_iff_active resolveEventsIfPossible.
Proof.
  intros this gl. unfold running_iff_active.
  destruct (resolveEventsIfPossible_fields this gl) as (_ & -> & -> & _). auto.
Qed.

Lemma toSpeedscopeProfile_state st : snd (toSpeedscopeProfile st) = st.
Proof.
  destruct st as [this gl]. unfold toSpeedscopeProfile, bind, getThis.
  cbn [fst]. destruct (length (resolvedEvents this) =? 0)%nat; [reflexivity|].
  destruct (convertEvents _ _ _ _). reflexivity.
Qed.

(** An invariant of the state kept by resolveEventsIfPossible and by every
    animation frame is kept by exportSpeedscopeProfile. *)
Lemma exportSpeedscopeProfile_invariant (P : State -> Prop) animationFrames :
  (forall st, P st -> P (snd (resolveEventsIfPossible st))) ->
  Forall (fun frame => forall this gl, P (this, gl) -> P (this, frame gl))
         animationFrames ->
  forall st, P st -> P (snd (exportSpeedscopeProfile animationFrames st)).
Proof.
  intros Hresolve Hframes.
  induction Hframes as [|frame later Hframe _ IH]; intros st HP;
    cbn [exportSpeedscopeProfile];
    (destruct (0 <? _)%nat;
      [|pose proof (toSpeedscopeProfile_state st) as Hst;
        destruct (toSpeedscopeProfile st); cbn in *; subst; exact HP]);
    specialize (Hresolve st HP);
    destruct (resolveEventsIfPossible st) as [[[]|e] [this' gl']];
    try exact Hresolve.
  apply IH. apply Hframe. exact Hresolve.
Qed.

Lemma stop_eq this gl :
  stop (this, gl) =
  match ext this with
  | None => (Normal tt, (this, gl))
  | Some _ =>
      if isRunning this then
        match popContext "profile" (set_isRunning false this, gl) with
        | (Normal _, (this', gl')) =>
            (Normal tt, (set_activeQuery None this', endQueryEXT gl'))
        | (Throw e, st') => (Throw e, st')
        end
      else (Throw AlreadyStopped, (this, gl))
  end.
Proof.
  unfold stop, bind at 1, getThis. cbn [fst].
  destruct (ext this); [|reflexivity].
  destruct (isRunning this); [|reflexivity]. cbn [negb].
  unfold bind, modifyThis. cbn [fst snd].
  destruct (popContext "profile" _) as [[[]|err] [this' gl']]; reflexivity.
Qed.

(** C10, as amended: the flag and the handle agree after construction, and
    they still agree after any call to start, pushContext, popContext,
    withContext (given a callback that keeps them so), the resolution
    routines, and after a stop() that returns or finds the profiler
    stopped, whenever they agreed before the call.  A stop() that raises out
    of its popContext("profile") leaves the flag false and the handle
    set. *)
Theorem running_iff_active_preserved :
  (forall context, running_iff_active (new_WebGLProfiler context)) /\
  preserves running_iff_active start /\
  (forall name, preserves running_iff_active (pushContext name)) /\
  (forall name, preserves running_iff_active (popContext name)) /\
  (forall name callback,
     preserves running_iff_active callback ->
     preserves running_iff_active (withContext name callback)) /\
  preserves running_iff_active resolveEventsIfPossible /\
  preserves running_iff_active toSpeedscopeProfile /\
  (forall animationFrames this gl,
     running_iff_active this ->
     running_iff_active
       (fst (snd (exportSpeedscopeProfile animationFrames (this, gl))))) /\
  (forall this gl,
     running_iff_active this ->
     match fst (stop (this, gl)) with
     | Normal _ | Throw AlreadyStopped =>
         running_iff_active (fst (snd (stop (this, gl))))
     | Throw _ =>
         isRunning (fst (snd (stop (this, gl)))) = false /\
         is_Some (activeQuery (fst (snd (stop (this, gl)))))
     end).
Proof.
  split; [|split; [|split; [|split; [|split; [|split; [|split; [|split]]]]]]].
  - intros context. unfold running_iff_active, new_WebGLProfiler. cbn.
    split; [discriminate|]. intros [q Hq]. discriminate.
  - exact start_preserves.
  - exact pushContext_preserves.
  - exact popContext_preserves.
  - intros name callback Hcallback. unfold withContext.
    apply preserves_bind; [apply pushContext_preserves|]. intros _.
    apply preserves_bind; [exact Hcallback|]. intros _.
    apply popContext_preserves.
  - exact resolveEventsIfPossible_preserves.
  - intros this gl H. rewrite toSpeedscopeProfile_state. exact H.
  - intros animationFrames this gl H.
    apply (exportSpeedscopeProfile_invariant
             (fun st => running_iff_active (fst st)) animationFrames).
    + intros [this' gl'] H'. apply resolveEventsIfPossible_preserves. exact H'.
    + apply Forall_forall. intros frame _ this' gl' H'. exact H'.
    + exact H.
  - intros this gl H. rewrite stop_eq.
    destruct (ext this) as [e|] eqn:Hext; [|exact H].
    destruct (isRunning this) eqn:Hrun; [|exact H].
    destruct (proj1 H Hrun) as [q Hq].
    rewrite popContext_eq. cbn [namedContextStack set_isRunning].
    destruct (namedContextStack this) as [|top below].
    { cbn. rewrite Hq. eauto. }
    cbv zeta. destruct (bool_decide _).
    + rewrite markAction_eq. cbn. rewrite Hext, Hq. cbn.
      unfold running_iff_active. cbn.
      split; [discriminate|]. intros [q' Hq']. discriminate.
    + cbn. rewrite Hq. eauto.
Qed.

Lemma running_iff_active_preserved_witness :
  running_iff_active (new_WebGLProfiler chrome_context) /\
  running_iff_active
    (fst (snd (start (new_WebGLProfiler chrome_context, chrome_context)))).
Proof.
  split.
  - apply (proj1 running_iff_active_preserved).
  - apply (proj1 (proj2 running_iff_active_preserved)).
    apply (proj1 running_iff_active_preserved).
Defined.

(** C10, as stated, fails: start(), pushContext("a"), then stop() raises
    from its popContext("profile"); the next pushContext("b") completes
    with the flag false and a query active. *)
Lemma stop_failure_counterexample :
  let script := [Start; PushContext "a"; Stop] in
  let st := snd (run script (new_WebGLProfiler chrome_context, chrome_context)) in
  fst (run script (new_WebGLProfiler chrome_context, chrome_context)) =
    Throw (PopMismatch "a" "profile") /\
  isRunning (fst st) = false /\
  activeQuery (fst st) = Some 2 /\
  fst (pushContext "b" st) = Normal tt /\
  isRunning (fst (snd (pushContext "b" st))) = false /\
  activeQuery (fst (snd (pushContext "b" st))) = Some 3 /\
  ~ running_iff_active (fst (snd (pushContext "b" st))).
Proof.
  vm_compute. repeat split.
  intros [_ H]. specialize (H (ex_intro _ 3 eq_refl)). discriminate.
Qed.

(** ** Timestamps *)

Lemma lastTimestamp_upper resolved i a :
  chronological resolved ->
  resolved !! i = Some a ->
  (res_timestamp a <= lastTimestamp resolved)%Z.
Proof.
  intros Hchron Ha. unfold lastTimestamp.
  pose proof (lookup_lt_Some _ _ _ Ha) as Hlt.
  rewrite last_lookup.
  destruct (lookup_lt_is_Some_2 resolved (pred (length resolved))) as [b Hb];
    [lia|].
  rewrite Hb. apply (Hchron i (pred (length resolved))); [lia|exact Ha|exact Hb].
Qed.

Lemma chronological_snoc resolved event :
  chronological resolved ->
  (lastTimestamp resolved <= res_timestamp event)%Z ->
  chronological (resolved ++ [event]).
Proof.
  intros Hchron Hlast i j a b Hij Ha Hb.
  apply lookup_snoc_Some in Ha as [[Hi Ha]|[Hi <-]];
    apply lookup_snoc_Some in Hb as [[Hj Hb]|[Hj <-]].
  - exact (Hchron i j a b Hij Ha Hb).
  - pose proof (lastTimestamp_upper _ _ _ Hchron Ha). lia.
  - lia.
  - lia.
Qed.

Lemma chronological_stamp elapsed ps :
  forall resolved,
  chronological resolved ->
  Forall (fun p => (0 <= elapsed (pend_query p))%Z) ps ->
  chronological (resolved ++ stamp elapsed (lastTimestamp resolved) ps).
Proof.
  induction ps as [|p ps IH]; intros resolved Hchron Hpos; cbn [stamp].
  - rewrite app_nil_r. exact Hchron.
  - apply Forall_cons in Hpos as [Hp Hpos].
    set (event := mkResolved (pend_action p)
                    (lastTimestamp resolved + elapsed (pend_query p))).
    assert (Hevent : (lastTimestamp resolved + elapsed (pend_query p))%Z =
                     lastTimestamp (resolved ++ [event]))
      by (rewrite lastTimestamp_snoc; reflexivity).
    rewrite Hevent.
    change (resolved ++ event :: ?l) with (resolved ++ [event] ++ l).
    rewrite app_assoc. apply IH; [|exact Hpos].
    apply chronological_snoc; [exact Hchron|]. cbn. lia.
Qed.

Lemma nonneg_polled n qs gl : nonneg gl -> nonneg (polled n qs gl).
Proof. intros H. exact H. Qed.

Lemma resolveEventsIfPossible_chronological this gl :
  nonneg gl ->
  chronological (resolvedEvents this) ->
  chronological (resolvedEvents (fst (snd (resolveEventsIfPossible (this, gl))))) /\
  nonneg (snd (snd (resolveEventsIfPossible (this, gl)))).
Proof.
  intros Hpos Hchron.
  destruct (resolveEventsIfPossible_cases this gl)
    as (pre & rest & _ & Hav & [-> | [_ ->]]);
    cbn [fst snd resolvedEvents set_resolvedEvents];
    (split; [|apply nonneg_polled; exact Hpos]);
    (apply chronological_stamp; [exact Hchron|]);
    (eapply Forall_impl; [exact Hav|]); intros p Hp; apply Hpos; exact Hp.
Qed.

Lemma pushContext_fields name this gl :
  let this' := fst (snd (pushContext name (this, gl))) in
  ext this' = ext this /\
  isRunning this' = isRunning this /\
  resolvedEvents this' = resolvedEvents this.
Proof.
  rewrite pushContext_eq.
  pose proof (markAction_fields (mkAction OPEN_FRAME name) this gl) as H.
  destruct (markAction _ _) as [[[]|e] [this' gl']]; cbn in *; tauto.
Qed.

Lemma popContext_fields name this gl :
  let this' := fst (snd (popContext name (this, gl))) in
  ext this' = ext this /\
  isRunning this' = isRunning this /\
  resolvedEvents this' = resolvedEvents this.
Proof.
  rewrite popContext_eq.
  destruct (namedContextStack this) as [|top below]; [cbn; tauto|].
  cbv zeta. destruct (bool_decide _); [|cbn; tauto].
  destruct (markAction_fields (mkAction CLOSE_FRAME name)
              (set_namedContextStack (removelast (top :: below)) this) gl)
    as (H1 & H2 & H3 & _).
  cbv zeta. rewrite H1, H2, H3. cbn. tauto.
Qed.

(** A client call leaves the resolved list alone or empties it. *)
Lemma call_resolvedEvents c this gl :
  resolvedEvents (fst (snd (call c (this, gl)))) = resolvedEvents this \/
  resolvedEvents (fst (snd (call c (this, gl)))) = [].
Proof.
  destruct c as [| |name|name|work]; cbn [call].
  - rewrite start_outcome.
    start_guards this gl; cbn; auto.
  - rewrite stop_eq.
    destruct (ext this); [|auto]. destruct (isRunning this); [|auto].
    destruct (popContext_fields "profile" (set_isRunning false this) gl)
      as (_ & _ & H).
    destruct (popContext _ _) as [[[]|err] [this' gl']]; cbn in *; auto.
  - left. apply pushContext_fields.
  - left. apply popContext_fields.
  - left. reflexivity.
Qed.

Lemma chronological_nil : chronological [].
Proof. intros i j a b _ Ha. discriminate. Qed.

Lemma reachable_chronological this :
  reachable this -> chronological (resolvedEvents this).
Proof.
  induction 1 as [context|c this gl _ IH|this gl _ IH Hpos].
  - apply chronological_nil.
  - destruct (call_resolvedEvents c this gl) as [-> | ->];
      [exact IH|apply chronological_nil].
  - apply resolveEventsIfPossible_chronological; assumption.
Qed.

Lemma call_ext c this gl : ext (fst (snd (call c (this, gl)))) = ext this.
Proof.
  destruct c as [| |name|name|work]; cbn [call].
  - rewrite start_outcome.
    start_guards this gl; cbn; congruence.
  - rewrite stop_eq.
    destruct (ext this) eqn:Hext; [|exact Hext].
    destruct (isRunning this); [|exact Hext].
    destruct (popContext_fields "profile" (set_isRunning false this) gl)
      as (H & _).
    destruct (popContext _ _) as [[[]|err] [this' gl']]; cbn in *; congruence.
  - apply pushContext_fields.
  - apply popContext_fields.
  - reflexivity.
Qed.

Lemma call_without_extension c this gl :
  ext this = None ->
  eventsPendingTimestamps (fst (snd (call c (this, gl)))) =
  eventsPendingTimestamps this.
Proof.
  intros Hext. destruct c as [| |name|name|work]; cbn [call].
  - rewrite start_outcome, Hext. reflexivity.
  - rewrite stop_eq, Hext. reflexivity.
  - rewrite pushContext_eq, markAction_eq, Hext. reflexivity.
  - rewrite popContext_eq.
    destruct (namedContextStack this); [reflexivity|]. cbv zeta.
    destruct (bool_decide _); [|reflexivity].
    rewrite markAction_eq. cbn [ext set_namedContextStack].
    rewrite Hext. reflexivity.
  - reflexivity.
Qed.

(** Without the extension nothing is ever queued: the hypothesis
    [is_Some (ext this)] of the statements about resolveEventsIfPossible
    excludes no reachable state with a pending entry. *)
Lemma reachable_pending_needs_extension this :
  reachable this -> ext this = None -> eventsPendingTimestamps this = [].
Proof.
  induction 1 as [context|c this gl _ IH|this gl _ IH Hpos]; intros Hext.
  - reflexivity.
  - rewrite call_ext in Hext. rewrite call_without_extension by exact Hext.
    apply IH, Hext.
  - destruct (resolveEventsIfPossible_fields this gl) as (Hext' & _).
    rewrite Hext' in Hext.
    rewrite resolveEventsIfPossible_eq, Hext. apply IH, Hext.
Qed.

(** ** Export *)

Lemma exportSpeedscopeProfile_Normal animationFrames :
  forall st file st',
  exportSpeedscopeProfile animationFrames st = (Some (Normal file), st') ->
  toSpeedscopeProfile st' = (Normal file, st') /\
  eventsPendingTimestamps (fst st') = [].
Proof.
  induction animationFrames as [|frame later IH]; intros st file st' H;
    cbn [exportSpeedscopeProfile] in H;
    (destruct (0 <? length (eventsPendingTimestamps (fst st)))%nat eqn:Hlen;
      [destruct (resolveEventsIfPossible st) as [[[]|err] st1]; try discriminate
      |pose proof (toSpeedscopeProfile_state st) as Hst;
       destruct (toSpeedscopeProfile st) as [c st2] eqn:Hc; cbn in Hst;
       injection H as -> <-; subst st2;
       apply Nat.ltb_ge in Hlen;
       split; [exact Hc|];
       destruct (eventsPendingTimestamps (fst st)); [reflexivity|cbn in Hlen; lia]]).
  exact (IH _ _ _ H).
Qed.

Lemma getOrInsertFrame_spec name frames (frameToIndex : gmap string nat) :
  exists frame frames' (frameToIndex' : gmap string nat),
    getOrInsertFrame name frames frameToIndex = (frame, frames', frameToIndex') /\
    frame = match frameToIndex' !! name with
            | Some i => FrameIndex i
            | None => InheritedProperty name
            end /\
    (frameToIndex' !! name = None -> name ∈ Object_prototype) /\
    (forall n i, frameToIndex !! n = Some i -> frameToIndex' !! n = Some i) /\
    (forall n, n ∈ Object_prototype -> frameToIndex !! n = None ->
               frameToIndex' !! n = None).
Proof.
  unfold getOrInsertFrame, in_frameToIndex.
  destruct (bool_decide (is_Some (frameToIndex !! name))) eqn:Hown.
  - cbn. eexists _, _, _. split; [reflexivity|]. split; [reflexivity|].
    apply bool_decide_eq_true in Hown as [i Hi].
    split; [rewrite Hi; discriminate|]. auto.
  - apply bool_decide_eq_false in Hown.
    destruct (bool_decide (name ∈ Object_prototype)) eqn:Hproto; cbn.
    + eexists _, _, _. split; [reflexivity|]. split; [reflexivity|].
      apply bool_decide_eq_true in Hproto. auto.
    + apply bool_decide_eq_false in Hproto.
      eexists _, _, _. split; [reflexivity|]. split; [reflexivity|].
      split; [rewrite lookup_insert_eq; discriminate|]. split.
      * intros n i Hn. rewrite lookup_insert_ne; [exact Hn|].
        intros <-. apply Hown. eauto.
      * intros n Hn Hnone. rewrite lookup_insert_ne; [exact Hnone|].
        intros <-. contradiction.
Qed.

(** The loop gives every name one frame reference throughout. *)
Lemma convertEvents_events events :
  forall frames (frameToIndex : gmap string nat) speedscopeEvents,
  exists frameOf,
    snd (convertEvents events frames frameToIndex speedscopeEvents) =
      speedscopeEvents ++ map (toEvent frameOf) events /\
    (forall n i, frameToIndex !! n = Some i -> frameOf n = FrameIndex i) /\
    (forall n, n ∈ Object_prototype -> frameToIndex !! n = None ->
               frameOf n = InheritedProperty n).
Proof.
  induction events as [|event later IH]; intros frames frameToIndex speedscopeEvents.
  - exists (fun n => match frameToIndex !! n with
                     | Some i => FrameIndex i
                     | None => InheritedProperty n
                     end).
    cbn. rewrite app_nil_r. split; [reflexivity|].
    split; [intros n i ->; reflexivity|intros n _ ->; reflexivity].
  - cbn [convertEvents].
    destruct (getOrInsertFrame_spec (act_name (res_action event)) frames frameToIndex)
      as (frame & frames' & frameToIndex' & -> & Hframe & Hnone & Hkeep & Hproto).
    destruct (IH frames' frameToIndex'
                (speedscopeEvents ++
                 [mkEvent (speedscopeEventType (act_type (res_action event)))
                          frame (res_timestamp event)]))
      as (frameOf & Hevents & Hown & Hinherited).
    exists frameOf. split; [|split].
    + rewrite Hevents, <- app_assoc. cbn [app map]. f_equal. f_equal.
      unfold toEvent. f_equal. rewrite Hframe.
      destruct (frameToIndex' !! act_name (res_action event)) as [i|] eqn:Hi.
      * symmetry. apply Hown. exact Hi.
      * symmetry. apply Hinherited; [apply Hnone; reflexivity|exact Hi].
    + intros n i Hn. apply Hown, Hkeep, Hn.
    + intros n Hn Hnone'. apply Hinherited; [exact Hn|]. apply Hproto; assumption.
Qed.

Lemma toSpeedscopeProfile_Normal this gl file st' :
  toSpeedscopeProfile (this, gl) = (Normal file, st') ->
  resolvedEvents this <> [] /\
  exists frameOf frames,
    file = mkFile "https://www.Speedscopeapp/file-format-schema.json" frames
             [mkProfile EVENTED "GPU Profile" "nanoseconds" 0
                (lastTimestamp (resolvedEvents this))
                (map (toEvent frameOf) (resolvedEvents this))].
Proof.
  unfold toSpeedscopeProfile, bind, getThis, throw, ret. cbn [fst].
  destruct (resolvedEvents this) as [|event later] eqn:Hres; [discriminate|].
  cbn [length Nat.eqb]. intros H. split; [discriminate|].
  destruct (convertEvents_events (event :: later) [] ∅ [])
    as (frameOf & Hevents & _).
  destruct (convertEvents (event :: later) [] ∅ []) as [frames events].
  cbn [snd app] in Hevents. subst events.
  injection H as <- _. exists frameOf, frames. reflexivity.
Qed.

Lemma lookup_map {A B} (f : A -> B) (l : list A) i :
  map f l !! i = f <$> l !! i.
Proof. apply (list_lookup_fmap f l i). Qed.

Lemma last_map {A B} (f : A -> B) (l : list A) :
  last (map f l) = f <$> last l.
Proof. apply (fmap_last f l). Qed.

(** *** The frame table *)

Lemma interned_empty : interned [] ∅.
Proof.
  intros n i. rewrite lookup_empty. split; [discriminate|].
  destruct i; discriminate.
Qed.

Lemma interned_NoDup frames (frameToIndex : gmap string nat) :
  interned frames frameToIndex -> NoDup (map frame_name frames).
Proof.
  intros H. apply NoDup_alt. intros i j n Hi Hj.
  rewrite lookup_map in Hi, Hj.
  destruct (frames !! i) as [[ni]|] eqn:Hfi; [|discriminate].
  destruct (frames !! j) as [[nj]|] eqn:Hfj; [|discriminate].
  cbn in Hi, Hj. injection Hi as ->. injection Hj as ->.
  apply H in Hfi, Hfj. congruence.
Qed.

Lemma refers_app frames more name frame :
  refers frames name frame -> refers (frames ++ more) name frame.
Proof.
  destruct frame as [i|key]; cbn; [|auto].
  intros H. rewrite lookup_app_l; [exact H|]. eapply lookup_lt_Some, H.
Qed.

Lemma getOrInsertFrame_interned name frames (frameToIndex : gmap string nat) :
  interned frames frameToIndex ->
  exists frame more (frameToIndex' : gmap string nat),
    getOrInsertFrame name frames frameToIndex =
      (frame, frames ++ more, frameToIndex') /\
    interned (frames ++ more) frameToIndex' /\
    refers (frames ++ more) name frame.
Proof.
  intros H. unfold getOrInsertFrame, in_frameToIndex.
  destruct (bool_decide (is_Some (frameToIndex !! name))) eqn:Hown.
  - apply bool_decide_eq_true in Hown as [i Hi]. cbn. rewrite Hi.
    exists (FrameIndex i), [], frameToIndex. rewrite app_nil_r.
    split; [reflexivity|]. split; [exact H|]. apply H, Hi.
  - apply bool_decide_eq_false in Hown.
    assert (Hnone : frameToIndex !! name = None).
    { destruct (frameToIndex !! name) eqn:Hn; [|reflexivity].
      exfalso. apply Hown. eauto. }
    destruct (bool_decide (name ∈ Object_prototype)) eqn:Hproto; cbn.
    + apply bool_decide_eq_true in Hproto. rewrite Hnone.
      exists (InheritedProperty name), [], frameToIndex. rewrite app_nil_r.
      split; [reflexivity|]. split; [exact H|]. split; [reflexivity|exact Hproto].
    + rewrite lookup_insert_eq.
      exists (FrameIndex (length frames)), [mkFrame name],
             (<[name := length frames]> frameToIndex).
      split; [reflexivity|]. split.
      * intros n i. destruct (decide (name = n)) as [<-|Hne].
        -- rewrite lookup_insert_eq. split.
           ++ intros [= <-]. apply list_lookup_middle. reflexivity.
           ++ intros Hi. apply lookup_snoc_Some in Hi as [[Hlt Hi]|[-> _]];
                [|reflexivity].
              apply H in Hi. congruence.
        -- rewrite lookup_insert_ne by exact Hne. split.
           ++ intros Hi. apply H in Hi. rewrite lookup_app_l; [exact Hi|].
              eapply lookup_lt_Some, Hi.
           ++ intros Hi. apply lookup_snoc_Some in Hi as [[Hlt Hi]|[_ Heq]];
                [apply H, Hi|congruence].
      * cbn. apply list_lookup_middle. reflexivity.
Qed.

(** The frame table stays duplicate-free, and every event refers to the
    entry of its name. *)
Lemma convertEvents_interned events :
  forall frames (frameToIndex : gmap string nat) speedscopeEvents,
  interned frames frameToIndex ->
  exists more newEvents,
    convertEvents events frames frameToIndex speedscopeEvents =
      (frames ++ more, speedscopeEvents ++ newEvents) /\
    NoDup (map frame_name (frames ++ more)) /\
    Forall2 (fun event speedscopeEvent =>
               ev_type speedscopeEvent =
                 speedscopeEventType (act_type (res_action event)) /\
               ev_at speedscopeEvent = res_timestamp event /\
               refers (frames ++ more) (act_name (res_action event))
                      (ev_frame speedscopeEvent))
            events newEvents.
Proof.
  induction events as [|event later IH];
    intros frames frameToIndex speedscopeEvents H.
  - exists [], []. rewrite !app_nil_r. split; [reflexivity|].
    split; [eapply interned_NoDup, H|constructor].
  - cbn [convertEvents].
    destruct (getOrInsertFrame_interned (act_name (res_action event)) _ _ H)
      as (frame & more1 & frameToIndex' & -> & H' & Hframe).
    destruct (IH (frames ++ more1) frameToIndex'
                (speedscopeEvents ++
                 [mkEvent (speedscopeEventType (act_type (res_action event)))
                          frame (res_timestamp event)]) H')
      as (more2 & newEvents & -> & Hnodup & Hall).
    exists (more1 ++ more2),
           (mkEvent (speedscopeEventType (act_type (res_action event)))
                    frame (res_timestamp event) :: newEvents).
    rewrite <- !app_assoc in *. split; [reflexivity|]. split; [exact Hnodup|].
    constructor; [|exact Hall]. cbn. split; [reflexivity|]. split; [reflexivity|].
    rewrite app_assoc. apply refers_app, Hframe.
Qed.

(** The exported document: its frame names are distinct, and its events
    are the resolved events in order, each with its type, its timestamp and
    a reference to the frame of its name. *)
Lemma toSpeedscopeProfile_frame_table this gl file st' :
  toSpeedscopeProfile (this, gl) = (Normal file, st') ->
  NoDup (map frame_name (file_shared_frames file)) /\
  exists profile,
    file_profiles file = [profile] /\
    Forall2 (fun event speedscopeEvent =>
               ev_type speedscopeEvent =
                 speedscopeEventType (act_type (res_action event)) /\
               ev_at speedscopeEvent = res_timestamp event /\
               refers (file_shared_frames file) (act_name (res_action event))
                      (ev_frame speedscopeEvent))
            (resolvedEvents this) (prof_events profile).
Proof.
  unfold toSpeedscopeProfile, bind, getThis, throw, ret. cbn [fst].
  destruct (length (resolvedEvents this) =? 0)%nat; [discriminate|].
  destruct (convertEvents_interned (resolvedEvents this) [] ∅ [] interned_empty)
    as (more & newEvents & -> & Hnodup & Hall).
  cbn [app]. intros [= <- _]. cbn. eauto.
Qed.

Lemma reachable_run cs :
  forall this gl, reachable this -> reachable (fst (snd (run cs (this, gl)))).
Proof.
  induction cs as [|c cs IH]; intros this gl H; [exact H|].
  cbn [run]. unfold bind.
  pose proof (reachable_call c this gl H) as Hc.
  destruct (call c (this, gl)) as [[[]|err] [this' gl']]; [|exact Hc].
  apply IH. exact Hc.
Qed.

Lemma example_session_exports :
  exportSpeedscopeProfile [id] (fst after_example_session, snd after_example_session) =
  (Some (Normal example_file),
   snd (exportSpeedscopeProfile [id]
          (fst after_example_session, snd after_example_session))).
Proof. vm_compute. reflexivity. Qed.

Lemma exportSpeedscopeProfile_chronological animationFrames this gl :
  chronological (resolvedEvents this) ->
  nonneg gl ->
  Forall (fun frame => forall g, nonneg g -> nonneg (frame g)) animationFrames ->
  chronological
    (resolvedEvents (fst (snd (exportSpeedscopeProfile animationFrames (this, gl))))).
Proof.
  intros Hchron Hpos Hframes.
  apply (exportSpeedscopeProfile_invariant
           (fun st => chronological (resolvedEvents (fst st)) /\ nonneg (snd st))
           animationFrames).
  - intros [this1 gl1] [Hchron1 Hpos1].
    apply resolveEventsIfPossible_chronological; assumption.
  - eapply Forall_impl; [exact Hframes|].
    intros frame Hframe this1 gl1 [Hchron1 Hpos1]. split; [exact Hchron1|].
    apply Hframe. exact Hpos1.
  - split; assumption.
Qed.

(** C5: for a profiler in any state its clients can reach, with contexts
    that report non-negative durations, throughout the export as well,
    every profile exportSpeedscopeProfile produces has events whose [at]
    values do not decrease with the index, a startValue of 0 and an
    endValue equal to the [at] of its last event. *)
Theorem exported_timestamps_nondecreasing this gl animationFrames file st' :
  reachable this ->
  nonneg gl ->
  Forall (fun frame => forall g, nonneg g -> nonneg (frame g)) animationFrames ->
  exportSpeedscopeProfile animationFrames (this, gl) = (Some (Normal file), st') ->
  exists profile lastEvent,
    file_profiles file = [profile] /\
    (forall i j a b,
       i <= j ->
       prof_events profile !! i = Some a ->
       prof_events profile !! j = Some b ->
       (ev_at a <= ev_at b)%Z) /\
    prof_startValue profile = 0%Z /\
    last (prof_events profile) = Some lastEvent /\
    prof_endValue profile = ev_at lastEvent.
Proof.
  intros Hreach Hpos Hframes Hexport.
  pose proof (exportSpeedscopeProfile_chronological animationFrames this gl
                (reachable_chronological this Hreach) Hpos Hframes) as Hchron.
  rewrite Hexport in Hchron. cbn [snd] in Hchron.
  apply exportSpeedscopeProfile_Normal in Hexport as [Hfile _].
  destruct st' as [this' gl'].
  apply toSpeedscopeProfile_Normal in Hfile as (Hne & frameOf & frames & ->).
  cbn [fst] in Hchron.
  destruct (last (resolvedEvents this')) as [lastResolved|] eqn:Hlast;
    [|apply last_None in Hlast; contradiction].
  eexists _, (toEvent frameOf lastResolved). split; [reflexivity|].
  cbn [prof_events prof_startValue prof_endValue].
  split; [|split; [reflexivity|split]].
  - intros i j a b Hij Ha Hb. rewrite lookup_map in Ha, Hb.
    destruct (resolvedEvents this' !! i) as [ra|] eqn:Hra; [|discriminate].
    destruct (resolvedEvents this' !! j) as [rb|] eqn:Hrb; [|discriminate].
    injection Ha as <-. injection Hb as <-.
    exact (Hchron i j ra rb Hij Hra Hrb).
  - rewrite last_map, Hlast. reflexivity.
  - unfold lastTimestamp. rewrite Hlast. reflexivity.
Qed.

Lemma exported_timestamps_nondecreasing_witness :
  nonneg (snd after_example_session) /\
  exists profile lastEvent,
    file_profiles example_file = [profile] /\
    (forall i j a b,
       i <= j ->
       prof_events profile !! i = Some a ->
       prof_events profile !! j = Some b ->
       (ev_at a <= ev_at b)%Z) /\
    prof_startValue profile = 0%Z /\
    last (prof_events profile) = Some lastEvent /\
    prof_endValue profile = ev_at lastEvent.
Proof.
  assert (Hpos : nonneg (snd after_example_session)).
  { intros query _. vm_compute. destruct query; discriminate. }
  split; [exact Hpos|].
  apply (exported_timestamps_nondecreasing
           (fst after_example_session) (snd after_example_session) [id]
           example_file
           (snd (exportSpeedscopeProfile [id]
                   (fst after_example_session, snd after_example_session)))).
  - apply reachable_run. apply reachable_new.
  - exact Hpos.
  - constructor; [|constructor]. intros g Hg. exact Hg.
  - exact example_session_exports.
Defined.

(** ** Well-nested sessions *)

Lemma run_app cs1 cs2 st :
  run (cs1 ++ cs2) st =
  match run cs1 st with
  | (Normal _, st') => run cs2 st'
  | (Throw e, st') => (Throw e, st')
  end.
Proof.
  revert st. induction cs1 as [|c cs1 IH]; intros st; [reflexivity|].
  cbn [app run]. unfold bind.
  destruct (call c st) as [[[]|err] st1]; [apply IH|reflexivity].
Qed.

(** withContext with a callback that is a script is the flat script. *)
Lemma withContext_run name cs st :
  withContext name (run cs) st =
  run (PushContext name :: cs ++ [PopContext name]) st.
Proof.
  unfold withContext. cbn [run call]. unfold bind at 1 3.
  destruct (pushContext name st) as [[[]|err] st1]; [|reflexivity].
  rewrite run_app. unfold bind at 1.
  destruct (run cs st1) as [[[]|err] st2]; [|reflexivity].
  cbn [run call]. unfold bind, ret.
  destruct (popContext name st2) as [[[]|err] st3]; reflexivity.
Qed.

Lemma forwards_refl this : live this -> forwards [] (namedContextStack this) this this.
Proof. intros H. repeat split; try apply H. rewrite app_nil_r. reflexivity. Qed.

Lemma forwards_trans acts1 acts2 stack1 stack2 this1 this2 this3 :
  forwards acts1 stack1 this1 this2 ->
  forwards acts2 stack2 this2 this3 ->
  forwards (acts1 ++ acts2) stack2 this1 this3.
Proof.
  intros (_ & Hrun1 & Hres1 & _ & Hq1) (Hlive & Hrun2 & Hres2 & Hstack & Hq2).
  repeat split; try apply Hlive; try congruence.
  rewrite Hq2, Hq1, app_assoc. reflexivity.
Qed.

Lemma markAction_live action this gl :
  live this ->
  exists this' gl',
    markAction action (this, gl) = (Normal tt, (this', gl')) /\
    forwards [action] (namedContextStack this) this this'.
Proof.
  intros [[e Hext] [q Hq]]. rewrite markAction_eq, Hext, Hq.
  eexists _, _. split; [reflexivity|].
  repeat split; cbn; eauto. rewrite map_app. reflexivity.
Qed.

Lemma pushContext_live name this gl :
  live this ->
  exists this' gl',
    pushContext name (this, gl) = (Normal tt, (this', gl')) /\
    forwards [mkAction OPEN_FRAME name] (namedContextStack this ++ [name])
             this this'.
Proof.
  intros Hlive. rewrite pushContext_eq.
  destruct (markAction_live (mkAction OPEN_FRAME name) this gl Hlive)
    as (this' & gl' & -> & Hlive' & Hrun & Hres & Hstack & Hq).
  eexists _, _. split; [reflexivity|].
  repeat split; cbn; try apply Hlive'; try assumption.
  rewrite Hstack. reflexivity.
Qed.

Lemma popContext_live name below this gl :
  live this ->
  namedContextStack this = below ++ [name] ->
  exists this' gl',
    popContext name (this, gl) = (Normal tt, (this', gl')) /\
    forwards [mkAction CLOSE_FRAME name] below this this'.
Proof.
  intros Hlive Hstack. rewrite popContext_eq, Hstack.
  destruct (below ++ [name]) as [|top rest] eqn:Hsnoc;
    [destruct below; discriminate|].
  rewrite <- Hsnoc. cbv zeta.
  rewrite last_snoc, removelast_snoc, bool_decide_eq_true_2 by reflexivity.
  destruct (markAction_live (mkAction CLOSE_FRAME name)
              (set_namedContextStack below this) gl)
    as (this' & gl' & -> & Hfw); [exact Hlive|].
  eexists _, _. split; [reflexivity|]. exact Hfw.
Qed.

Lemma actions_app cs1 cs2 : actions (cs1 ++ cs2) = actions cs1 ++ actions cs2.
Proof.
  induction cs1 as [|[| |name|name|work] cs1 IH]; cbn; rewrite ?IH; reflexivity.
Qed.

(** A well-nested script runs to its end in a live state, queues its
    actions in order and gives the context stack back as it found it. *)
Lemma run_WellNested cs :
  WellNested cs ->
  forall this gl,
  live this ->
  exists this' gl',
    run cs (this, gl) = (Normal tt, (this', gl')) /\
    forwards (actions cs) (namedContextStack this) this this'.
Proof.
  induction 1 as [|work cs _ IH|name body cs _ IHbody _ IHcs];
    intros this gl Hlive.
  - exists this, gl. split; [reflexivity|]. apply forwards_refl, Hlive.
  - cbn [run call actions]. unfold bind, glDo. cbn [fst snd].
    apply IH. exact Hlive.
  - cbn [run call]. unfold bind at 1.
    destruct (pushContext_live name this gl Hlive)
      as (this1 & gl1 & -> & Hfw1).
    rewrite run_app.
    destruct (IHbody this1 gl1) as (this2 & gl2 & -> & Hfw2);
      [apply Hfw1|].
    cbn [run call]. unfold bind at 1.
    destruct (popContext_live name (namedContextStack this) this2 gl2)
      as (this3 & gl3 & -> & Hfw3).
    { apply Hfw2. }
    { destruct Hfw2 as (_ & _ & _ & -> & _). apply Hfw1. }
    destruct (IHcs this3 gl3) as (this4 & gl4 & -> & Hfw4); [apply Hfw3|].
    exists this4, gl4. split; [reflexivity|].
    cbn [actions]. rewrite actions_app. cbn [actions].
    assert (Hstack3 : namedContextStack this3 = namedContextStack this)
      by apply Hfw3.
    rewrite Hstack3 in Hfw4.
    replace (mkAction OPEN_FRAME name :: actions body ++
             mkAction CLOSE_FRAME name :: actions cs)
      with ((([mkAction OPEN_FRAME name] ++ actions body) ++
             [mkAction CLOSE_FRAME name]) ++ actions cs)
      by (rewrite <- !app_assoc; reflexivity).
    eapply forwards_trans; [|exact Hfw4].
    eapply forwards_trans; [|exact Hfw3].
    eapply forwards_trans; [exact Hfw1|exact Hfw2].
Qed.


(** start(), a well-nested script, stop(): every call returns, and the
    queue holds the script's actions between the root's open and close. *)
Lemma session_runs this gl cs :
  WellNested cs ->
  fst (start (this, gl)) = Normal tt ->
  exists this' gl',
    run (Start :: cs ++ [Stop]) (this, gl) = (Normal tt, (this', gl')) /\
    is_Some (ext this') /\
    resolvedEvents this' = [] /\
    map pend_action (eventsPendingTimestamps this') =
      mkAction OPEN_FRAME "profile" :: actions cs ++
      [mkAction CLOSE_FRAME "profile"] /\
    isRunning this' = false /\
    activeQuery this' = None /\
    namedContextStack this' = namedContextStack this.
Proof.
  intros Hcs Hstart. rewrite start_outcome in Hstart.
  destruct (ext this) as [e|] eqn:Hext; [|discriminate].
  destruct (isRunning this) eqn:Hrun; [discriminate|].
  destruct (denylisted gl) eqn:Hdeny; [discriminate|]. clear Hstart.
  cbn [run call]. unfold bind at 1.
  rewrite start_outcome, Hext, Hrun, Hdeny. unfold started.
  rewrite run_app.
  match goal with
  | |- context [run cs (?this1, ?gl1)] =>
      destruct (run_WellNested cs Hcs this1 gl1)
        as (this2 & gl2 & -> & Hlive2 & Hrun2 & Hres2 & Hstack2 & Hq2)
  end.
  { split; cbn; rewrite ?Hext; eauto. }
  cbn [isRunning resolvedEvents namedContextStack eventsPendingTimestamps map app]
    in Hrun2, Hres2, Hstack2, Hq2.
  cbn [run call]. unfold bind, ret. rewrite stop_eq.
  destruct Hlive2 as [[e2 Hext2] Hactive2]. rewrite Hext2, Hrun2.
  destruct (popContext_live "profile" (namedContextStack this)
              (set_isRunning false this2) gl2)
    as (this3 & gl3 & -> & Hlive3 & Hrun3 & Hres3 & Hstack3 & Hq3).
  { split; cbn; rewrite ?Hext2; eauto. }
  { exact Hstack2. }
  cbn [isRunning resolvedEvents eventsPendingTimestamps set_isRunning]
    in Hrun3, Hres3, Hq3.
  eexists _, _. split; [reflexivity|].
  cbn [ext resolvedEvents eventsPendingTimestamps isRunning activeQuery
       namedContextStack set_activeQuery].
  split; [apply Hlive3|]. split; [congruence|].
  split; [rewrite Hq3, Hq2; reflexivity|]. auto.
Qed.

(** A fulfilled export has resolved the whole queue, in order. *)
Lemma exportSpeedscopeProfile_resolves_all animationFrames :
  forall st file st',
  exportSpeedscopeProfile animationFrames st = (Some (Normal file), st') ->
  map res_action (resolvedEvents (fst st')) =
    map res_action (resolvedEvents (fst st)) ++
    map pend_action (eventsPendingTimestamps (fst st)).
Proof.
  assert (Hstep : forall this gl st1,
            resolveEventsIfPossible (this, gl) = (Normal tt, st1) ->
            map res_action (resolvedEvents (fst st1)) ++
            map pend_action (eventsPendingTimestamps (fst st1)) =
            map res_action (resolvedEvents this) ++
            map pend_action (eventsPendingTimestamps this)).
  { intros this gl st1 Hcall.
    destruct (resolveEventsIfPossible_cases this gl)
      as (pre & rest & Heq & _ & [Hn | [_ Ht]]); [|congruence].
    rewrite Hn in Hcall. injection Hcall as <-.
    cbn [fst resolvedEvents eventsPendingTimestamps].
    rewrite Heq, !map_app, stamp_actions, <- app_assoc. reflexivity. }
  assert (Hend : forall st file st',
            (0 <? length (eventsPendingTimestamps (fst st)))%nat = false ->
            (let (c, st1) := toSpeedscopeProfile st in (Some c, st1)) =
              (Some (Normal file), st') ->
            map res_action (resolvedEvents (fst st')) =
              map res_action (resolvedEvents (fst st)) ++
              map pend_action (eventsPendingTimestamps (fst st))).
  { intros st file st' Hlen H.
    pose proof (toSpeedscopeProfile_state st) as Hst.
    destruct (toSpeedscopeProfile st) as [c st2]. cbn in Hst.
    injection H as _ <-. subst st2.
    apply Nat.ltb_ge in Hlen.
    destruct (eventsPendingTimestamps (fst st)); [|cbn in Hlen; lia].
    cbn [map]. rewrite app_nil_r. reflexivity. }
  induction animationFrames as [|frame later IH]; intros [this gl] file st' H;
    cbn [exportSpeedscopeProfile] in H;
    (destruct (0 <? length (eventsPendingTimestamps (fst (this, gl))))%nat eqn:Hlen;
      [|exact (Hend _ _ _ Hlen H)]);
    destruct (resolveEventsIfPossible (this, gl)) as [[[]|err] st1] eqn:Hcall;
    try discriminate.
  rewrite (IH _ _ _ H). cbn [fst]. apply (Hstep _ _ _ Hcall).
Qed.










(** * Further properties *)

(** ** stop() *)

(** X1: without the extension stop() returns and changes nothing; with it,
    on a profiler that is not running, stop() fails with the
    InvalidStateError and changes nothing. *)
Theorem stop_guards this gl :
  (ext this = None -> stop (this, gl) = (Normal tt, (this, gl))) /\
  (is_Some (ext this) -> isRunning this = false ->
   stop (this, gl) = (Throw AlreadyStopped, (this, gl)) /\
   classify AlreadyStopped = InvalidStateError).
Proof.
  split.
  - intros Hext. rewrite stop_eq, Hext. reflexivity.
  - intros [e Hext] Hrun. rewrite stop_eq, Hext, Hrun. split; reflexivity.
Qed.

Lemma stop_guards_witness :
  stop (new_WebGLProfiler firefox_context, firefox_context) =
    (Normal tt, (new_WebGLProfiler firefox_context, firefox_context)) /\
  stop (new_WebGLProfiler chrome_context, chrome_context) =
    (Throw AlreadyStopped, (new_WebGLProfiler chrome_context, chrome_context)).
Proof.
  split.
  - apply (proj1 (stop_guards (new_WebGLProfiler firefox_context) firefox_context)).
    reflexivity.
  - apply (proj2 (stop_guards (new_WebGLProfiler chrome_context) chrome_context)).
    + exists ExtObject. reflexivity.
    + reflexivity.
Defined.

(** X2: on a running profiler with an active query [query] and the root
    context on top of the stack, stop() returns: it queues the close of
    "profile" with [query], takes the root off the stack, clears the flag
    and the handle, and leaves the context timing nothing; resolved events
    are untouched and no query is deleted. *)
Theorem stop_ends_measurement this gl below query :
  is_Some (ext this) ->
  isRunning this = true ->
  activeQuery this = Some query ->
  namedContextStack this = below ++ ["profile"] ->
  exists gl',
    stop (this, gl) =
      (Normal tt,
       (mkProfiler (ext this) None false
          (eventsPendingTimestamps this ++
             [mkPending (mkAction CLOSE_FRAME "profile") query])
          (resolvedEvents this) below, gl')) /\
    gl_active_query gl' = None /\
    gl_deleted gl' = gl_deleted gl /\
    gl_next_query gl' = S (gl_next_query gl).
Proof.
  intros [e Hext] Hrun Hactive Hstack.
  rewrite stop_eq, Hext, Hrun, popContext_eq.
  cbn [namedContextStack set_isRunning]. rewrite Hstack.
  destruct (below ++ ["profile"]) as [|top rest] eqn:Hsnoc;
    [destruct below; discriminate|].
  rewrite <- Hsnoc. cbv zeta.
  rewrite last_snoc, removelast_snoc, bool_decide_eq_true_2 by reflexivity.
  rewrite markAction_eq. cbn. rewrite Hext, Hactive.
  eexists. split; [reflexivity|]. cbn. auto.
Qed.

Lemma stop_ends_measurement_witness :
  let st := started (new_WebGLProfiler chrome_context) chrome_context in
  activeQuery (fst st) = Some 1 /\
  exists gl',
    stop (fst st, snd st) =
      (Normal tt,
       (mkProfiler (Some ExtObject) None false
          [mkPending (mkAction OPEN_FRAME "profile") 0;
           mkPending (mkAction CLOSE_FRAME "profile") 1] [] [], gl')) /\
    gl_active_query gl' = None.
Proof.
  intros st. split; [reflexivity|].
  destruct (stop_ends_measurement (fst st) (snd st) [] 1)
    as (gl' & Hstop & Hnone & _).
  - exists ExtObject. reflexivity.
  - reflexivity.
  - reflexivity.
  - reflexivity.
  - exists gl'. split; [exact Hstop|exact Hnone].
Defined.

Lemma start_live this gl :
  fst (start (this, gl)) = Normal tt ->
  start (this, gl) = (Normal tt, started this gl) /\
  live (fst (started this gl)).
Proof.
  rewrite start_outcome. start_guards this gl; try discriminate.
  intros _. split; [reflexivity|]. split; cbn; eauto.
Qed.

(** A script that opens one context more than it closes. *)
Lemma run_open_context cs1 name cs2 this gl :
  WellNested cs1 ->
  WellNested cs2 ->
  live this ->
  exists this' gl',
    run (cs1 ++ PushContext name :: cs2) (this, gl) = (Normal tt, (this', gl')) /\
    forwards (actions cs1 ++ mkAction OPEN_FRAME name :: actions cs2)
             (namedContextStack this ++ [name]) this this'.
Proof.
  intros Hcs1 Hcs2 Hlive. rewrite run_app.
  destruct (run_WellNested cs1 Hcs1 this gl Hlive)
    as (this1 & gl1 & -> & Hfw1).
  cbn [run call]. unfold bind at 1.
  destruct (pushContext_live name this1 gl1) as (this2 & gl2 & -> & Hfw2);
    [apply Hfw1|].
  destruct (run_WellNested cs2 Hcs2 this2 gl2) as (this3 & gl3 & -> & Hfw3);
    [apply Hfw2|].
  exists this3, gl3. split; [reflexivity|].
  assert (Hstack1 : namedContextStack this1 = namedContextStack this)
    by apply Hfw1.
  assert (Hstack2 : namedContextStack this2 = namedContextStack this ++ [name])
    by (rewrite <- Hstack1; apply Hfw2).
  rewrite Hstack2 in Hfw3. rewrite Hstack1 in Hfw2.
  change (actions cs1 ++ mkAction OPEN_FRAME name :: actions cs2)
    with (actions cs1 ++ [mkAction OPEN_FRAME name] ++ actions cs2).
  eapply forwards_trans; [exact Hfw1|].
  eapply forwards_trans; [exact Hfw2|exact Hfw3].
Qed.

(** X3: a session that leaves a context other than "profile" open is
    caught by stop(): after a start() that returns and a script that is
    well nested but for one pushContext(name) never closed, stop() fails
    with the ProtocolError naming [name]; it has cleared the running flag
    and taken [name] off the stack, and the query stays active. *)
Theorem stop_detects_open_context this gl cs1 name cs2 :
  WellNested cs1 ->
  WellNested cs2 ->
  name <> "profile" ->
  fst (start (this, gl)) = Normal tt ->
  exists this' gl',
    run (Start :: cs1 ++ PushContext name :: cs2) (this, gl) =
      (Normal tt, (this', gl')) /\
    stop (this', gl') =
      (Throw (PopMismatch name "profile"),
       (set_namedContextStack (namedContextStack this ++ ["profile"])
          (set_isRunning false this'), gl')) /\
    classify (PopMismatch name "profile") = ProtocolError /\
    is_Some (activeQuery this').
Proof.
  intros Hcs1 Hcs2 Hname Hstart.
  destruct (start_live this gl Hstart) as [Heq Hlive].
  cbn [run call]. unfold bind at 1. rewrite Heq.
  destruct (run_open_context cs1 name cs2 _ (snd (started this gl)) Hcs1 Hcs2 Hlive)
    as (this' & gl' & Hrun & Hlive' & Hrun' & _ & Hstack & _).
  exists this', gl'. split; [exact Hrun|].
  cbn [started fst isRunning namedContextStack] in Hrun', Hstack.
  destruct Hlive' as [[e Hext] Hactive].
  split; [|split; [reflexivity|exact Hactive]].
  rewrite stop_eq, Hext, Hrun', popContext_eq.
  cbn [namedContextStack set_isRunning]. rewrite Hstack.
  destruct ((namedContextStack this ++ ["profile"]) ++ [name])
    as [|top rest] eqn:Hsnoc; [destruct (namedContextStack this); discriminate|].
  rewrite <- Hsnoc. cbv zeta.
  rewrite last_snoc, removelast_snoc.
  rewrite bool_decide_eq_false_2 by congruence.
  reflexivity.
Qed.

Lemma stop_detects_open_context_witness :
  "a" <> "profile" /\
  exists this' gl',
    run (Start :: [] ++ PushContext "a" :: [])
        (new_WebGLProfiler chrome_context, chrome_context) =
      (Normal tt, (this', gl')) /\
    fst (stop (this', gl')) = Throw (PopMismatch "a" "profile").
Proof.
  split; [discriminate|].
  destruct (stop_detects_open_context
              (new_WebGLProfiler chrome_context) chrome_context [] "a" [])
    as (this' & gl' & Hrun & Hstop & _).
  - constructor.
  - constructor.
  - discriminate.
  - vm_compute. reflexivity.
  - exists this', gl'. split; [exact Hrun|]. rewrite Hstop. reflexivity.
Defined.

(** ** withContext *)

(** X4: in a state where a query is active, withContext(name, callback)
    with a callback that is a well-nested script returns: it queues the
    open of [name], the actions of the script in order and the close of
    [name], and gives the context stack back as it found it; the running
    flag and the resolved events are untouched. *)
Theorem withContext_script this gl name body :
  WellNested body ->
  live this ->
  exists this' gl',
    withContext name (run body) (this, gl) = (Normal tt, (this', gl')) /\
    forwards (mkAction OPEN_FRAME name :: actions body ++
              [mkAction CLOSE_FRAME name])
             (namedContextStack this) this this'.
Proof.
  intros Hbody Hlive. rewrite withContext_run.
  destruct (run_WellNested _ (WellNested_scope name body [] Hbody WellNested_nil)
              this gl Hlive) as (this' & gl' & Hrun & Hfw).
  exists this', gl'. split; [exact Hrun|].
  cbn [actions] in Hfw. rewrite actions_app in Hfw. exact Hfw.
Qed.

Lemma withContext_script_witness :
  let st := started (new_WebGLProfiler chrome_context) chrome_context in
  exists this' gl',
    withContext "c" (run [GLWork id]) (fst st, snd st) =
      (Normal tt, (this', gl')) /\
    namedContextStack this' = ["profile"] /\
    map pend_action (eventsPendingTimestamps this') =
      [mkAction OPEN_FRAME "profile"; mkAction OPEN_FRAME "c";
       mkAction CLOSE_FRAME "c"].
Proof.
  intros st.
  destruct (withContext_script (fst st) (snd st) "c" [GLWork id])
    as (this' & gl' & Hrun & _ & _ & _ & Hstack & Hq).
  - repeat constructor.
  - split; [exists ExtObject|exists 1]; reflexivity.
  - exists this', gl'. split; [exact Hrun|]. split; [exact Hstack|exact Hq].
Defined.

(** X5: withContext has no handler around the callback.  When the callback
    throws without having touched the profiler, withContext throws the same
    error after pushContext and before popContext: the open of [name] is
    queued, no close is, and [name] stays on the context stack. *)
Theorem withContext_callback_throws this gl name (callback : M unit) e :
  live this ->
  (forall this1 gl1, exists gl2, callback (this1, gl1) = (Throw e, (this1, gl2))) ->
  exists this' gl',
    withContext name callback (this, gl) = (Throw e, (this', gl')) /\
    forwards [mkAction OPEN_FRAME name] (namedContextStack this ++ [name])
             this this'.
Proof.
  intros Hlive Hcallback. unfold withContext, bind.
  destruct (pushContext_live name this gl Hlive) as (this1 & gl1 & -> & Hfw).
  destruct (Hcallback this1 gl1) as [gl2 ->].
  exists this1, gl2. split; [reflexivity|exact Hfw].
Qed.

Lemma withContext_callback_throws_witness :
  let st := started (new_WebGLProfiler chrome_context) chrome_context in
  exists this' gl',
    withContext "c" (throw GpuDisjoint) (fst st, snd st) =
      (Throw GpuDisjoint, (this', gl')) /\
    namedContextStack this' = ["profile"; "c"] /\
    map pend_action (eventsPendingTimestamps this') =
      [mkAction OPEN_FRAME "profile"; mkAction OPEN_FRAME "c"].
Proof.
  intros st.
  destruct (withContext_callback_throws (fst st) (snd st) "c"
              (throw GpuDisjoint) GpuDisjoint)
    as (this' & gl' & Hrun & _ & _ & _ & Hstack & Hq).
  - split; [exists ExtObject|exists 1]; reflexivity.
  - intros this1 gl1. exists gl1. reflexivity.
  - exists this', gl'. split; [exact Hrun|]. split; [exact Hstack|exact Hq].
Defined.

(** ** The frame table of the exported document *)

(** X6: getOrInsertFrame is idempotent: asking again for the frame of the
    same name gives the same reference and leaves the table and its index
    as the first call left them, so a name is inserted at most once. *)
Theorem getOrInsertFrame_again name frames (frameToIndex : gmap string nat) :
  getOrInsertFrame name
    (snd (fst (getOrInsertFrame name frames frameToIndex)))
    (snd (getOrInsertFrame name frames frameToIndex)) =
  getOrInsertFrame name frames frameToIndex.
Proof.
  unfold getOrInsertFrame at 2 3 4. unfold in_frameToIndex.
  destruct (bool_decide (is_Some (frameToIndex !! name))) eqn:Hown;
    [|destruct (bool_decide (name ∈ Object_prototype)) eqn:Hproto];
    cbn [orb negb fst snd];
    unfold getOrInsertFrame, in_frameToIndex.
  - rewrite Hown. reflexivity.
  - rewrite Hown, Hproto. reflexivity.
  - rewrite lookup_insert_eq.
    rewrite (bool_decide_eq_true_2 (is_Some (Some (length frames))))
      by eauto.
    cbn [orb negb]. rewrite lookup_insert_eq. reflexivity.
Qed.

Lemma interned_own frames (frameToIndex : gmap string nat) name :
  interned frames frameToIndex ->
  is_Some (frameToIndex !! name) <-> name ∈ map frame_name frames.
Proof.
  intros H. split.
  - intros [i Hi]. apply H in Hi.
    change (map frame_name frames) with (frame_name <$> frames).
    apply list_elem_of_fmap. exists (mkFrame name). split; [reflexivity|].
    apply list_elem_of_lookup. eauto.
  - change (map frame_name frames) with (frame_name <$> frames).
    intros Hin. apply list_elem_of_fmap in Hin as ([n] & -> & Hin).
    apply list_elem_of_lookup in Hin as [i Hi]. exists i. apply H, Hi.
Qed.

Lemma in_frameToIndex_seen frames (frameToIndex : gmap string nat) name :
  interned frames frameToIndex ->
  in_frameToIndex name frameToIndex =
  bool_decide (name ∈ Object_prototype ++ map frame_name frames).
Proof.
  intros H. unfold in_frameToIndex.
  destruct (bool_decide (name ∈ Object_prototype ++ map frame_name frames))
    eqn:Hseen.
  - apply bool_decide_eq_true in Hseen. apply elem_of_app in Hseen as [Hp|Hf].
    + rewrite (bool_decide_eq_true_2 _ Hp). apply orb_true_r.
    + apply (interned_own _ _ _ H) in Hf.
      rewrite (bool_decide_eq_true_2 _ Hf). reflexivity.
  - apply bool_decide_eq_false in Hseen.
    apply not_elem_of_app in Hseen as [Hp Hf].
    rewrite (bool_decide_eq_false_2 _ Hp).
    rewrite bool_decide_eq_false_2; [reflexivity|].
    intros Hown. apply Hf. apply (interned_own _ _ _ H). exact Hown.
Qed.

Lemma convertEvents_firstSeen events :
  forall frames (frameToIndex : gmap string nat) speedscopeEvents,
  interned frames frameToIndex ->
  map frame_name (fst (convertEvents events frames frameToIndex speedscopeEvents)) =
  map frame_name frames ++
  firstSeen (Object_prototype ++ map frame_name frames)
            (map (fun event => act_name (res_action event)) events).
Proof.
  induction events as [|event later IH];
    intros frames frameToIndex speedscopeEvents H.
  - cbn. rewrite app_nil_r. reflexivity.
  - cbn [convertEvents map firstSeen].
    destruct (getOrInsertFrame_interned (act_name (res_action event)) _ _ H)
      as (frame & more & frameToIndex' & Heq & H' & _).
    pose proof Heq as Heq'. unfold getOrInsertFrame in Heq'.
    rewrite (in_frameToIndex_seen _ _ _ H) in Heq'.
    rewrite Heq. rewrite (IH _ _ _ H').
    destruct (bool_decide (_ ∈ _ ++ map frame_name frames)); cbn [negb] in Heq'.
    + injection Heq' as _ Hframes _.
      assert (more = []) as ->
        by (apply (app_inv_head frames); rewrite app_nil_r; symmetry; exact Hframes).
      rewrite app_nil_r. reflexivity.
    + injection Heq' as _ Hframes _. apply app_inv_head in Hframes. subst more.
      rewrite map_app, <- !app_assoc. reflexivity.
Qed.

Lemma firstSeen_fresh names :
  forall seen name, name ∈ firstSeen seen names -> name ∉ seen.
Proof.
  induction names as [|first later IH]; intros seen name Hin;
    cbn [firstSeen] in Hin; [inversion Hin|].
  destruct (bool_decide (first ∈ seen)) eqn:Hseen; [exact (IH _ _ Hin)|].
  apply bool_decide_eq_false in Hseen.
  apply elem_of_cons in Hin as [->|Hin]; [exact Hseen|].
  apply IH in Hin. intros Hold. apply Hin. apply elem_of_app. left. exact Hold.
Qed.

Lemma toSpeedscopeProfile_firstSeen this gl file st' :
  toSpeedscopeProfile (this, gl) = (Normal file, st') ->
  map frame_name (file_shared_frames file) =
  firstSeen Object_prototype
    (map (fun event => act_name (res_action event)) (resolvedEvents this)).
Proof.
  unfold toSpeedscopeProfile, bind, getThis, throw, ret. cbn [fst].
  destruct (length (resolvedEvents this) =? 0)%nat; [discriminate|].
  pose proof (convertEvents_firstSeen (resolvedEvents this) [] ∅ []
                interned_empty) as Hframes.
  destruct (convertEvents (resolvedEvents this) [] ∅ []) as [frames events].
  intros [= <- _]. cbn [file_shared_frames fst map app] in *.
  rewrite app_nil_r in Hframes. exact Hframes.
Qed.

(** X7: in every document toSpeedscopeProfile produces, the frame names
    are pairwise distinct, none of them is a name that every object
    inherits from Object.prototype, and the events are the resolved events
    in order: each has the type and the timestamp of its resolved event;
    its frame is the index of the table entry carrying the event's name,
    except for a name of Object.prototype, where no entry is made and the
    frame is that inherited property. *)
Theorem exported_frame_table animationFrames st file st' :
  exportSpeedscopeProfile animationFrames st = (Some (Normal file), st') ->
  NoDup (map frame_name (file_shared_frames file)) /\
  Forall (fun frame => frame_name frame ∉ Object_prototype)
         (file_shared_frames file) /\
  exists profile,
    file_profiles file = [profile] /\
    Forall2 (fun event speedscopeEvent =>
               ev_type speedscopeEvent =
                 speedscopeEventType (act_type (res_action event)) /\
               ev_at speedscopeEvent = res_timestamp event /\
               frameRefOf (file_shared_frames file)
                          (act_name (res_action event))
                          (ev_frame speedscopeEvent))
            (resolvedEvents (fst st')) (prof_events profile).
Proof.
  intros Hexport.
  apply exportSpeedscopeProfile_Normal in Hexport as [Hfile _].
  destruct st' as [this' gl']. cbn [fst].
  destruct (toSpeedscopeProfile_frame_table _ _ _ _ Hfile)
    as (Hnodup & profile & Hprofile & Hall).
  pose proof (toSpeedscopeProfile_firstSeen _ _ _ _ Hfile) as Hnames.
  assert (Hown : forall name,
            name ∈ map frame_name (file_shared_frames file) ->
            name ∉ Object_prototype).
  { intros name Hin. rewrite Hnames in Hin.
    exact (firstSeen_fresh _ _ _ Hin). }
  split; [exact Hnodup|]. split.
  - apply Forall_forall. intros frame Hin. apply Hown.
    change (map frame_name (file_shared_frames file))
      with (frame_name <$> file_shared_frames file).
    apply list_elem_of_fmap. exists frame. split; [reflexivity|exact Hin].
  - exists profile. split; [exact Hprofile|].
    eapply Forall2_impl; [exact Hall|].
    intros event speedscopeEvent (Htype & Hat & Href).
    split; [exact Htype|]. split; [exact Hat|].
    unfold frameRefOf.
    destruct (ev_frame speedscopeEvent) as [i|key]; cbn [refers] in Href.
    + rewrite bool_decide_eq_false_2; [exists i; split; [reflexivity|exact Href]|].
      apply Hown.
      change (map frame_name (file_shared_frames file))
        with (frame_name <$> file_shared_frames file).
      apply list_elem_of_fmap.
      exists (mkFrame (act_name (res_action event))).
      split; [reflexivity|]. apply list_elem_of_lookup. exists i. exact Href.
    + destruct Href as [-> Hproto].
      rewrite (bool_decide_eq_true_2 _ Hproto). reflexivity.
Qed.

Lemma exported_frame_table_witness :
  let st := snd (run prototype_session
                   (new_WebGLProfiler chrome_context, chrome_context)) in
  exists file st',
    exportSpeedscopeProfile [id] st = (Some (Normal file), st') /\
    map frame_name (file_shared_frames file) = ["profile"] /\
    Forall (fun frame => frame_name frame ∉ Object_prototype)
           (file_shared_frames file) /\
    exists profile,
      file_profiles file = [profile] /\
      map ev_frame (prof_events profile) =
        [FrameIndex 0; InheritedProperty "toString";
         InheritedProperty "toString"; FrameIndex 0] /\
      Forall2 (fun event speedscopeEvent =>
                 frameRefOf (file_shared_frames file)
                            (act_name (res_action event))
                            (ev_frame speedscopeEvent))
              (resolvedEvents (fst st')) (prof_events profile).
Proof.
  intros st.
  destruct (exportSpeedscopeProfile [id] st) as [[[file|err]|] st'] eqn:Hexport;
    try (vm_compute in Hexport; discriminate Hexport).
  exists file, st'. split; [reflexivity|].
  destruct (exported_frame_table [id] st file st' Hexport)
    as (_ & Hown & profile & Hprofile & Hall).
  assert (Hfile : Some (Normal file) = fst (exportSpeedscopeProfile [id] st))
    by (rewrite Hexport; reflexivity).
  vm_compute in Hfile. injection Hfile as ->.
  split; [reflexivity|]. split; [exact Hown|].
  exists profile. split; [exact Hprofile|].
  injection Hprofile as <-. split; [reflexivity|].
  eapply Forall2_impl; [exact Hall|].
  intros event speedscopeEvent (_ & _ & Href). exact Href.
Defined.

(** X8: the frame table lists the names of the resolved events in the
    order of their first occurrence, each once, leaving out the names every
    object inherits from Object.prototype. *)
Theorem exported_frames_first_seen animationFrames st file st' :
  exportSpeedscopeProfile animationFrames st = (Some (Normal file), st') ->
  map frame_name (file_shared_frames file) =
  firstSeen Object_prototype
    (map (fun event => act_name (res_action event)) (resolvedEvents (fst st'))).
Proof.
  intros Hexport.
  apply exportSpeedscopeProfile_Normal in Hexport as [Hfile _].
  destruct st' as [this' gl']. cbn [fst].
  unfold toSpeedscopeProfile, bind, getThis, throw, ret in Hfile.
  cbn [fst] in Hfile.
  destruct (length (resolvedEvents this') =? 0)%nat; [discriminate|].
  pose proof (convertEvents_firstSeen (resolvedEvents this') [] ∅ []
                interned_empty) as Hframes.
  destruct (convertEvents (resolvedEvents this') [] ∅ []) as [frames events].
  injection Hfile as <-. cbn [file_shared_frames fst map app] in *.
  rewrite app_nil_r in Hframes. exact Hframes.
Qed.

Lemma exported_frames_first_seen_witness :
  map frame_name (file_shared_frames example_file) =
  firstSeen Object_prototype
    (map (fun event => act_name (res_action event))
       (resolvedEvents
          (fst (snd (exportSpeedscopeProfile [id]
                       (fst after_example_session,
                        snd after_example_session)))))).
Proof.
  exact (exported_frames_first_seen [id]
           (fst after_example_session, snd after_example_session)
           example_file _ example_session_exports).
Defined.

(** X9: the exported events mirror the calls.  After a start() that
    returns, a well-nested script and stop(), every fulfilled export lists
    one event per call, in the order of the calls, between the open and the
    close of "profile": an 'O' event for a pushContext and a 'C' event for
    a popContext, each with the frame of the call's name.  Events queued or
    resolved before start() do not appear. *)
Theorem session_events_mirror_calls this gl cs :
  WellNested cs ->
  fst (start (this, gl)) = Normal tt ->
  exists this' gl',
    run (Start :: cs ++ [Stop]) (this, gl) = (Normal tt, (this', gl')) /\
    forall gl'' animationFrames file st',
      exportSpeedscopeProfile animationFrames (this', gl'') =
        (Some (Normal file), st') ->
      exists profile,
        file_profiles file = [profile] /\
        Forall2 (fun action speedscopeEvent =>
                   ev_type speedscopeEvent =
                     speedscopeEventType (act_type action) /\
                   refers (file_shared_frames file) (act_name action)
                          (ev_frame speedscopeEvent))
                (mkAction OPEN_FRAME "profile" :: actions cs ++
                 [mkAction CLOSE_FRAME "profile"])
                (prof_events profile).
Proof.
  intros Hcs Hstart.
  destruct (session_runs this gl cs Hcs Hstart)
    as (this' & gl' & Hrun & _ & Hres & Hq & _).
  exists this', gl'. split; [exact Hrun|].
  intros gl'' animationFrames file st' Hexport.
  pose proof (exportSpeedscopeProfile_resolves_all _ _ _ _ Hexport) as Hall.
  cbn [fst] in Hall. rewrite Hres, Hq in Hall. cbn [map app] in Hall.
  apply exportSpeedscopeProfile_Normal in Hexport as [Hfile _].
  destruct st' as [this'' gl3].
  destruct (toSpeedscopeProfile_frame_table _ _ _ _ Hfile)
    as (_ & profile & Hprofile & Hevents).
  exists profile. split; [exact Hprofile|].
  cbn [fst] in Hall. rewrite <- Hall.
  change (map res_action (resolvedEvents this''))
    with (res_action <$> resolvedEvents this'').
  apply Forall2_fmap_l.
  eapply Forall2_impl; [exact Hevents|].
  intros event speedscopeEvent (Htype & _ & Hframe). split; assumption.
Qed.

Lemma session_events_mirror_calls_witness :
  fst (start (new_WebGLProfiler chrome_context, chrome_context)) = Normal tt /\
  exists this' gl',
    run (Start :: [PushContext "a"; PopContext "a"] ++ [Stop])
        (new_WebGLProfiler chrome_context, chrome_context) =
      (Normal tt, (this', gl')) /\
    forall gl'' animationFrames file st',
      exportSpeedscopeProfile animationFrames (this', gl'') =
        (Some (Normal file), st') ->
      exists profile,
        file_profiles file = [profile] /\
        length (prof_events profile) = 4.
Proof.
  assert (Hstart : fst (start (new_WebGLProfiler chrome_context, chrome_context))
                   = Normal tt) by (vm_compute; reflexivity).
  split; [exact Hstart|].
  destruct (session_events_mirror_calls
              (new_WebGLProfiler chrome_context) chrome_context
              [PushContext "a"; PopContext "a"])
    as (this' & gl' & Hrun & Hmirror).
  - exact (WellNested_scope "a" [] [] WellNested_nil WellNested_nil).
  - exact Hstart.
  - exists this', gl'. split; [exact Hrun|].
    intros gl'' animationFrames file st' Hexport.
    destruct (Hmirror gl'' animationFrames file st' Hexport)
      as (profile & Hprofile & Hall).
    exists profile. split; [exact Hprofile|].
    symmetry. exact (Forall2_length _ _ _ Hall).
Defined.

(** ** exportSpeedscopeProfile *)

Lemma toSpeedscopeProfile_context this gl1 gl2 :
  fst (toSpeedscopeProfile (this, gl1)) = fst (toSpeedscopeProfile (this, gl2)).
Proof.
  unfold toSpeedscopeProfile, bind, getThis, throw, ret. cbn [fst].
  destruct (length (resolvedEvents this) =? 0)%nat; [reflexivity|].
  destruct (convertEvents _ _ _ _). reflexivity.
Qed.

Lemma exportSpeedscopeProfile_drained animationFrames this gl :
  eventsPendingTimestamps this = [] ->
  exportSpeedscopeProfile animationFrames (this, gl) =
  (Some (fst (toSpeedscopeProfile (this, gl))), (this, gl)).
Proof.
  intros Hq.
  pose proof (toSpeedscopeProfile_state (this, gl)) as Hst.
  destruct animationFrames; cbn [exportSpeedscopeProfile fst];
    rewrite Hq; cbn [length Nat.ltb Nat.leb];
    destruct (toSpeedscopeProfile (this, gl)) as [c st1];
    cbn in Hst; subst st1; reflexivity.
Qed.

(** X10: with nothing pending and nothing resolved (a profiler that was
    never started, or one without the extension) the export is rejected at
    once with the EmptyProfileError; it awaits no animation frame and
    changes nothing. *)
Theorem export_of_nothing this gl animationFrames :
  eventsPendingTimestamps this = [] ->
  resolvedEvents this = [] ->
  exportSpeedscopeProfile animationFrames (this, gl) =
    (Some (Throw ProfileIsEmpty), (this, gl)) /\
  classify ProfileIsEmpty = EmptyProfileError.
Proof.
  intros Hq Hres. split; [|reflexivity].
  rewrite exportSpeedscopeProfile_drained by exact Hq.
  unfold toSpeedscopeProfile, bind, getThis, throw. cbn [fst].
  rewrite Hres. reflexivity.
Qed.

Lemma export_of_nothing_witness :
  exportSpeedscopeProfile [] (new_WebGLProfiler chrome_context, chrome_context) =
    (Some (Throw ProfileIsEmpty),
     (new_WebGLProfiler chrome_context, chrome_context)).
Proof.
  apply (export_of_nothing (new_WebGLProfiler chrome_context) chrome_context []);
    reflexivity.
Defined.

(** X11: exporting again gives the same document.  Once an export is
    fulfilled, every later export, whatever the context has become and
    without awaiting a frame, is fulfilled with the same document and
    changes nothing. *)
Theorem export_again animationFrames st file st' :
  exportSpeedscopeProfile animationFrames st = (Some (Normal file), st') ->
  forall animationFrames' gl',
    exportSpeedscopeProfile animationFrames' (fst st', gl') =
      (Some (Normal file), (fst st', gl')).
Proof.
  intros Hexport animationFrames' gl'.
  apply exportSpeedscopeProfile_Normal in Hexport as [Hfile Hq].
  destruct st' as [this' gl1]. cbn [fst] in *.
  rewrite exportSpeedscopeProfile_drained by exact Hq.
  rewrite (toSpeedscopeProfile_context this' gl' gl1), Hfile. reflexivity.
Qed.

Lemma export_again_witness :
  let this' := fst (snd (exportSpeedscopeProfile [id]
                           (fst after_example_session,
                            snd after_example_session))) in
  exportSpeedscopeProfile [] (this', stalled_context) =
    (Some (Normal example_file), (this', stalled_context)).
Proof.
  intros this'.
  exact (export_again [id]
           (fst after_example_session, snd after_example_session)
           example_file _ example_session_exports [] stalled_context).
Defined.

Lemma resolveEventsIfPossible_blocked this gl p rest :
  eventsPendingTimestamps this = p :: rest ->
  ~ available gl p ->
  resolveEventsIfPossible (this, gl) = (Normal tt, (this, gl)).
Proof.
  intros Hq Hp. rewrite resolveEventsIfPossible_eq, Hq.
  destruct (ext this); [|reflexivity].
  rewrite resolveLoop_unavailable by exact Hp. reflexivity.
Qed.

(** X12: the export never skips ahead.  While the result of the entry at
    the head of the pending queue is unavailable, at the call and after
    every animation frame, the export stays pending when the frames are
    over and the profiler is exactly as before, whichever results behind
    the head are available. *)
Theorem export_waits_for_head this p rest animationFrames :
  eventsPendingTimestamps this = p :: rest ->
  Forall (fun frame => forall g, ~ available g p -> ~ available (frame g) p)
         animationFrames ->
  forall gl,
  ~ available gl p ->
  exists gl',
    exportSpeedscopeProfile animationFrames (this, gl) = (None, (this, gl')).
Proof.
  intros Hq Hframes.
  induction Hframes as [|frame later Hframe _ IH]; intros gl Hp;
    cbn [exportSpeedscopeProfile fst]; rewrite Hq; cbn [length Nat.ltb Nat.leb];
    rewrite (resolveEventsIfPossible_blocked this gl p rest Hq Hp).
  - exists gl. reflexivity.
  - cbn [fst snd]. apply IH. apply Hframe. exact Hp.
Qed.

Lemma export_waits_for_head_witness :
  let this := fst after_example_session in
  exists gl',
    exportSpeedscopeProfile [id; id; id] (this, stalled_context) =
      (None, (this, gl')).
Proof.
  intros this.
  apply (export_waits_for_head this
           (mkPending (mkAction OPEN_FRAME "profile") 0)
           [mkPending (mkAction OPEN_FRAME "a") 1;
            mkPending (mkAction CLOSE_FRAME "a") 2;
            mkPending (mkAction CLOSE_FRAME "profile") 3]).
  - vm_compute. reflexivity.
  - repeat constructor; intros g Hg; exact Hg.
  - unfold available. cbn. discriminate.
Defined.

(** X13: a disjoint condition rejects the export.  When the pending queue
    starts with available entries [pre] read without a disjoint condition,
    followed by an available entry at which the flag reads true, the export
    is rejected with the UnreliableTimingError at its first resolution,
    before any animation frame; the pending queue is as it was. *)
Theorem export_rejects_disjoint this gl pre p rest later animationFrames :
  is_Some (ext this) ->
  eventsPendingTimestamps this = pre ++ p :: rest ->
  Forall (available gl) pre ->
  available gl p ->
  gl_disjoint gl = replicate (length pre) false ++ true :: later ->
  exists st',
    exportSpeedscopeProfile animationFrames (this, gl) =
      (Some (Throw GpuDisjoint), st') /\
    eventsPendingTimestamps (fst st') = eventsPendingTimestamps this /\
    classify GpuDisjoint = UnreliableTimingError.
Proof.
  intros Hext Hq Hav Hp Hscript.
  pose proof (resolveEventsIfPossible_disjoint this gl pre p rest later
                Hext Hq Hav Hp Hscript) as Hcall.
  assert (Hlen : (0 <? length (eventsPendingTimestamps this))%nat = true).
  { apply Nat.ltb_lt. rewrite Hq, length_app. cbn [length]. lia. }
  eexists. split; [|split; [|reflexivity]].
  - destruct animationFrames; cbn [exportSpeedscopeProfile fst];
      rewrite Hlen, Hcall; reflexivity.
  - reflexivity.
Qed.

Lemma export_rejects_disjoint_witness :
  let this := fst after_example_session in
  let gl := set_gl_disjoint [false; false; true] (snd after_example_session) in
  gl_disjoint gl = replicate 2 false ++ [true] /\
  exists st',
    exportSpeedscopeProfile [id] (this, gl) = (Some (Throw GpuDisjoint), st').
Proof.
  intros this gl. split; [vm_compute; reflexivity|].
  destruct (export_rejects_disjoint this gl
              [mkPending (mkAction OPEN_FRAME "profile") 0;
               mkPending (mkAction OPEN_FRAME "a") 1]
              (mkPending (mkAction CLOSE_FRAME "a") 2)
              [mkPending (mkAction CLOSE_FRAME "profile") 3] [] [id])
    as (st' & Hexport & _).
  - exists ExtObject. vm_compute. reflexivity.
  - vm_compute. reflexivity.
  - vm_compute. repeat constructor.
  - vm_compute. reflexivity.
  - vm_compute. reflexivity.
  - exists st'. exact Hexport.
Defined.

(** ** Timestamps as running sums *)

Lemma stamp_sum elapsed ps :
  forall t j r,
  stamp elapsed t ps !! j = Some r ->
  res_timestamp r = (t + totalElapsed elapsed (take (S j) ps))%Z.
Proof.
  induction ps as [|p ps IH]; intros t j r Hr; [discriminate|].
  destruct j as [|j]; cbn [stamp lookup list_lookup] in Hr.
  - injection Hr as <-. change (take 1 (p :: ps)) with [p].
    unfold totalElapsed. cbn [foldr res_timestamp]. lia.
  - rewrite (IH _ _ _ Hr).
    change (take (S (S j)) (p :: ps)) with (p :: take (S j) ps).
    unfold totalElapsed. cbn [foldr]. lia.
Qed.

Lemma totalElapsed_nonneg elapsed ps :
  Forall (fun p => (0 <= elapsed (pend_query p))%Z) ps ->
  (0 <= totalElapsed elapsed ps)%Z.
Proof.
  induction 1 as [|p ps Hp _ IH]; unfold totalElapsed in *; cbn [foldr]; lia.
Qed.

Lemma totalElapsed_take elapsed ps n :
  Forall (fun p => (0 <= elapsed (pend_query p))%Z) ps ->
  (totalElapsed elapsed (take n ps) <= totalElapsed elapsed ps)%Z.
Proof.
  intros H. revert n.
  induction H as [|p ps Hp Hps IH]; intros [|n]; cbn [take]; try lia.
  - pose proof (totalElapsed_nonneg elapsed ps Hps).
    unfold totalElapsed in *. cbn [foldr] in *. lia.
  - specialize (IH n). unfold totalElapsed in *. cbn [foldr]. lia.
Qed.

(** X14: the timestamps are running sums of durations, as long as the
    sums are exact.  The code adds the durations as doubles, one at a time;
    a duration is a whole number of nanoseconds.  In a call that resolves
    the entries [pre] (all available, the rest of the queue empty or headed
    by an unavailable entry, no disjoint condition read), when no duration
    is negative and the last timestamp before the call plus all the
    durations of [pre] does not exceed Number.MAX_SAFE_INTEGER, every
    timestamp the call writes lies between 0 and that bound, so that each
    addition is exact, and the event of the entry at position [j] is
    stamped with the last timestamp before the call plus the sum of the
    durations of the entries of [pre] up to and including position [j]. *)
Theorem timestamps_are_running_sums this gl pre rest :
  is_Some (ext this) ->
  eventsPendingTimestamps this = pre ++ rest ->
  Forall (available gl) pre ->
  (forall p, head rest = Some p -> ~ available gl p) ->
  Forall (eq false) (take (length pre) (gl_disjoint gl)) ->
  Forall (fun p => (0 <= gl_result gl (pend_query p))%Z) pre ->
  (0 <= lastTimestamp (resolvedEvents this))%Z ->
  (lastTimestamp (resolvedEvents this) + totalElapsed (gl_result gl) pre
   <= MAX_SAFE_INTEGER)%Z ->
  exists new gl',
    resolveEventsIfPossible (this, gl) =
      (Normal tt,
       (mkProfiler (ext this) (activeQuery this) (isRunning this) rest
          (resolvedEvents this ++ new) (namedContextStack this), gl')) /\
    length new = length pre /\
    forall j r,
      new !! j = Some r ->
      (0 <= res_timestamp r <= MAX_SAFE_INTEGER)%Z /\
      res_timestamp r =
        (lastTimestamp (resolvedEvents this)
         + totalElapsed (gl_result gl) (take (S j) pre))%Z.
Proof.
  intros Hext Hq Hav Hstop Hclean Hpos Hlast Hbound.
  eexists _, _. split; [|split].
  - apply resolveEventsIfPossible_normal; eassumption.
  - apply stamp_length.
  - intros j r Hr. rewrite (stamp_sum _ _ _ _ _ Hr).
    pose proof (totalElapsed_take (gl_result gl) pre (S j) Hpos) as Hle.
    pose proof (totalElapsed_nonneg (gl_result gl) (take (S j) pre)
                  (Forall_take _ _ _ Hpos)) as Hge.
    split; [lia|reflexivity].
Qed.

Lemma timestamps_are_running_sums_witness :
  let this := fst after_example_session in
  let gl := snd after_example_session in
  exists new gl',
    resolveEventsIfPossible (this, gl) =
      (Normal tt,
       (mkProfiler (ext this) (activeQuery this) (isRunning this) []
          (resolvedEvents this ++ new) (namedContextStack this), gl')) /\
    forall r, new !! 3 = Some r -> res_timestamp r = 10%Z.
Proof.
  intros this gl.
  destruct (timestamps_are_running_sums this gl (eventsPendingTimestamps this) [])
    as (new & gl' & Hcall & _ & Hsum).
  - exists ExtObject. vm_compute. reflexivity.
  - vm_compute. reflexivity.
  - vm_compute. repeat constructor.
  - intros p Hp. discriminate Hp.
  - vm_compute. constructor.
  - vm_compute. repeat constructor; discriminate.
  - vm_compute. discriminate.
  - vm_compute. discriminate.
  - exists new, gl'. split; [exact Hcall|].
    intros r Hr. rewrite (proj2 (Hsum 3 r Hr)). vm_compute. reflexivity.
Defined.

(** ** The query the context is timing *)

Lemma markAction_in_sync action this gl this' gl' :
  in_sync this gl ->
  markAction action (this, gl) = (Normal tt, (this', gl')) ->
  in_sync this' gl' /\
  namedContextStack this' = namedContextStack this /\
  isRunning this' = isRunning this /\
  ext this' = ext this.
Proof.
  intros [Hgl Hrun]. rewrite markAction_eq.
  destruct (ext this) as [e|] eqn:Hext;
    [destruct (activeQuery this) as [old|] eqn:Hactive; [|discriminate]|];
    intros [= <- <-].
  - unfold in_sync, running_iff_active in *. cbn.
    rewrite Hactive in Hrun. intuition eauto.
  - unfold in_sync. auto.
Qed.

Lemma in_sync_stack stack this gl :
  in_sync this gl -> in_sync (set_namedContextStack stack this) gl.
Proof. intros H. exact H. Qed.

Lemma call_in_sync c this gl this' gl' :
  quiet c ->
  in_sync this gl ->
  call c (this, gl) = (Normal tt, (this', gl')) ->
  in_sync this' gl'.
Proof.
  intros Hquiet Hsync. destruct c as [| |name|name|work]; cbn [call].
  - rewrite start_outcome. start_guards this gl; try discriminate.
    intros [= <- <-]. unfold in_sync, running_iff_active. cbn.
    repeat split; eauto.
  - rewrite stop_eq.
    destruct this as [[e|] active [|] pending resolved stack];
      cbn [ext isRunning]; try discriminate;
      try (intros [= <- <-]; exact Hsync).
    rewrite popContext_eq. cbn [namedContextStack set_isRunning].
    destruct stack as [|top below]; [discriminate|].
    cbv zeta. destruct (bool_decide _); [|discriminate].
    rewrite markAction_eq. cbn [ext activeQuery set_namedContextStack].
    destruct active as [old|]; [|discriminate].
    intros [= <- <-]. unfold in_sync, running_iff_active. cbn.
    repeat split; try discriminate. intros [q Hq]. discriminate.
  - rewrite pushContext_eq.
    destruct (markAction _ _) as [[[]|err] [this1 gl1]] eqn:Hmark;
      [|discriminate].
    intros [= <- <-].
    apply in_sync_stack. eapply markAction_in_sync; eassumption.
  - rewrite popContext_eq.
    destruct (namedContextStack this) as [|top below]; [discriminate|].
    cbv zeta. destruct (bool_decide _); [|discriminate].
    intros Hmark.
    eapply markAction_in_sync; [|exact Hmark]. exact Hsync.
  - intros [= <- <-]. destruct Hsync as [Hgl Hrun]. split; [|exact Hrun].
    rewrite <- Hgl. apply Hquiet.
Qed.

(** X15: one query at a time, and it is the profiler's.  Start from a
    state where the query the context is timing is the profiler's active
    query and there is one exactly when the profiler is running (a new
    profiler on a context that is timing nothing is such a state).  After
    any script whose calls all return, other work on the context leaving
    timer queries alone, the same holds: the context is timing a query
    exactly when isRunning is true, and that query is activeQuery. *)
Theorem one_query_at_a_time cs :
  forall this gl this' gl',
  Forall quiet cs ->
  gl_active_query gl = activeQuery this ->
  running_iff_active this ->
  run cs (this, gl) = (Normal tt, (this', gl')) ->
  gl_active_query gl' = activeQuery this' /\
  (isRunning this' = true <-> is_Some (gl_active_query gl')).
Proof.
  assert (Hrun : forall this gl this' gl',
            Forall quiet cs -> in_sync this gl ->
            run cs (this, gl) = (Normal tt, (this', gl')) ->
            in_sync this' gl').
  { induction cs as [|c cs IH]; intros this gl this' gl' Hquiet Hsync.
    - intros [= <- <-]. exact Hsync.
    - apply Forall_cons in Hquiet as [Hc Hquiet]. cbn [run]. unfold bind.
      destruct (call c (this, gl)) as [[[]|err] [this1 gl1]] eqn:Hcall;
        [|discriminate].
      apply IH; [exact Hquiet|]. eapply call_in_sync; eassumption. }
  intros this gl this' gl' Hquiet Hgl Hflag Hscript.
  destruct (Hrun this gl this' gl' Hquiet (conj Hgl Hflag) Hscript)
    as [Hgl' Hflag'].
  split; [exact Hgl'|]. rewrite Hgl'. exact Hflag'.
Qed.

Lemma one_query_at_a_time_witness :
  let st := snd (run [Start; PushContext "a"; GLWork id]
                     (new_WebGLProfiler chrome_context, chrome_context)) in
  gl_active_query (snd st) = activeQuery (fst st) /\
  (isRunning (fst st) = true <-> is_Some (gl_active_query (snd st))).
Proof.
  intros st.
  apply (one_query_at_a_time [Start; PushContext "a"; GLWork id]
           (new_WebGLProfiler chrome_context) chrome_context).
  - repeat constructor.
  - reflexivity.
  - split; [discriminate|]. intros [q Hq]. discriminate.
  - vm_compute. reflexivity.
Defined.

(** ** Query handles *)

Lemma elem_of_rev {A} (x : A) (l : list A) : x ∈ rev l <-> x ∈ l.
Proof. rewrite !list_elem_of_In. symmetry. apply in_rev. Qed.

Lemma NoDup_rev_list {A} (l : list A) : NoDup l -> NoDup (rev l).
Proof.
  induction 1 as [|x l Hx _ IH]; cbn [rev]; [constructor|].
  apply NoDup_app. split; [exact IH|]. split; [|apply NoDup_singleton].
  intros y Hy Hin. apply list_elem_of_singleton in Hin as ->.
  apply Hx. apply elem_of_rev. exact Hy.
Qed.

Lemma tidy_new_handle this gl this' gl' :
  tidy this gl ->
  handles this' = handles this ++ [gl_next_query gl] ->
  gl_next_query gl' = S (gl_next_query gl) ->
  gl_deleted gl' = gl_deleted gl ->
  tidy this' gl'.
Proof.
  intros (Hnodup & Hbelow & Hdel & Hdel2 & Hsep) Heq Hnext Hsame.
  unfold tidy. rewrite Heq, Hnext, Hsame.
  rewrite Forall_forall in Hbelow. rewrite Forall_forall in Hdel.
  split; [|split; [|split; [|split]]].
  - apply NoDup_app. split; [exact Hnodup|]. split; [|apply NoDup_singleton].
    intros q Hq Hin. apply list_elem_of_singleton in Hin.
    specialize (Hbelow q Hq). lia.
  - apply Forall_app. split.
    + apply Forall_forall. intros q Hq. specialize (Hbelow q Hq). lia.
    + repeat constructor.
  - apply Forall_forall. intros q Hq. specialize (Hdel q Hq). lia.
  - exact Hdel2.
  - intros q Hq. apply elem_of_app in Hq as [Hq|Hq]; [apply Hsep, Hq|].
    apply list_elem_of_singleton in Hq as ->. intros Hin.
    specialize (Hdel _ Hin). lia.
Qed.

Lemma tidy_fewer_handles this gl this' gl' more :
  tidy this gl ->
  handles this = handles this' ++ more ->
  gl_next_query gl' = gl_next_query gl ->
  gl_deleted gl' = gl_deleted gl ->
  tidy this' gl'.
Proof.
  intros (Hnodup & Hbelow & Hdel & Hdel2 & Hsep) Heq Hnext Hsame.
  unfold tidy. rewrite Hnext, Hsame. rewrite Heq in Hnodup, Hbelow, Hsep.
  apply NoDup_app in Hnodup as (Hnodup & _ & _).
  apply Forall_app in Hbelow as [Hbelow _].
  repeat split; try assumption.
  intros q Hq. apply Hsep. apply elem_of_app. left. exact Hq.
Qed.

Lemma markAction_tidy action this gl :
  tidy this gl ->
  tidy (fst (snd (markAction action (this, gl))))
       (snd (snd (markAction action (this, gl)))).
Proof.
  intros H. rewrite markAction_eq.
  destruct (ext this) as [e|] eqn:Hext;
    [destruct (activeQuery this) as [old|] eqn:Hactive|]; try exact H.
  cbn [fst snd]. eapply tidy_new_handle; [exact H| |reflexivity|reflexivity].
  unfold handles. cbn [eventsPendingTimestamps activeQuery].
  rewrite Hactive, map_app, <- !app_assoc. reflexivity.
Qed.

Lemma popContext_tidy name this gl :
  tidy this gl ->
  tidy (fst (snd (popContext name (this, gl))))
       (snd (snd (popContext name (this, gl)))).
Proof.
  intros H. rewrite popContext_eq.
  destruct (namedContextStack this); [exact H|]. cbv zeta.
  destruct (bool_decide _); [|exact H].
  apply markAction_tidy. exact H.
Qed.

Lemma call_tidy c this gl :
  quiet c ->
  tidy this gl ->
  tidy (fst (snd (call c (this, gl)))) (snd (snd (call c (this, gl)))).
Proof.
  intros Hquiet H. destruct c as [| |name|name|work]; cbn [call].
  - rewrite start_outcome. start_guards this gl; try exact H.
    destruct H as (_ & _ & Hdel & Hdel2 & _).
    rewrite Forall_forall in Hdel.
    unfold tidy, handles. cbn.
    split; [|split; [|split; [|split]]].
    + repeat constructor; intros Hin.
      * apply list_elem_of_singleton in Hin. lia.
      * inversion Hin.
    + repeat constructor; lia.
    + apply Forall_forall. intros q Hq. specialize (Hdel q Hq). lia.
    + exact Hdel2.
    + intros q Hq Hin. specialize (Hdel q Hin).
      apply elem_of_cons in Hq as [->|Hq]; [lia|].
      apply list_elem_of_singleton in Hq as ->. lia.
  - rewrite stop_eq.
    destruct (ext this); [|exact H]. destruct (isRunning this); [|exact H].
    pose proof (popContext_tidy "profile" (set_isRunning false this) gl H) as Hpop.
    destruct (popContext _ _) as [[[]|err] [this1 gl1]]; [|exact Hpop].
    cbn [fst snd] in *.
    eapply (tidy_fewer_handles this1 gl1 _ _
              (match activeQuery this1 with Some q => [q] | None => [] end));
      [exact Hpop| |reflexivity|reflexivity].
    unfold handles. cbn [eventsPendingTimestamps activeQuery set_activeQuery].
    rewrite app_nil_r. reflexivity.
  - rewrite pushContext_eq.
    pose proof (markAction_tidy (mkAction OPEN_FRAME name) this gl H) as Hmark.
    destruct (markAction _ _) as [[[]|err] [this1 gl1]]; exact Hmark.
  - apply popContext_tidy. exact H.
  - destruct H as (Hnodup & Hbelow & Hdel & Hdel2 & Hsep).
    destruct (Hquiet gl) as (Hnext & Hsame & _).
    unfold tidy, glDo. cbn [fst snd]. rewrite Hnext, Hsame. auto.
Qed.

Lemma resolveEventsIfPossible_tidy this gl :
  tidy this gl ->
  fst (resolveEventsIfPossible (this, gl)) = Normal tt ->
  tidy (fst (snd (resolveEventsIfPossible (this, gl))))
       (snd (snd (resolveEventsIfPossible (this, gl)))).
Proof.
  intros (Hnodup & Hbelow & Hdel & Hdel2 & Hsep) Hreturn.
  destruct (resolveEventsIfPossible_cases this gl)
    as (pre & rest & Hq & _ & [Hcall | [_ Hcall]]);
    rewrite Hcall in Hreturn |- *; [clear Hreturn|discriminate].
  unfold handles in Hnodup, Hbelow, Hsep.
  rewrite Hq, map_app, <- app_assoc in Hnodup, Hbelow, Hsep.
  apply NoDup_app in Hnodup as (Hpre & Hdisjoint & Hrest).
  apply Forall_app in Hbelow as [Hbelow1 Hbelow2].
  unfold tidy, handles.
  cbn [fst snd eventsPendingTimestamps activeQuery polled gl_next_query gl_deleted].
  split; [exact Hrest|]. split; [exact Hbelow2|].
  split; [|split].
  - apply Forall_app. split; [|exact Hdel].
    apply Forall_rev. exact Hbelow1.
  - apply NoDup_app. split; [apply NoDup_rev_list; exact Hpre|]. split; [|exact Hdel2].
    intros q Hin. apply (proj1 (elem_of_rev _ _)) in Hin. apply Hsep.
    apply elem_of_app. left. exact Hin.
  - intros q Hin Hdeleted. apply elem_of_app in Hdeleted as [Hd|Hd].
    + apply (proj1 (elem_of_rev _ _)) in Hd. exact (Hdisjoint q Hd Hin).
    + apply (Hsep q); [|exact Hd]. apply elem_of_app. right. exact Hin.
Qed.

Lemma resolveEventsIfPossible_throws this gl e :
  fst (resolveEventsIfPossible (this, gl)) = Throw e -> e = GpuDisjoint.
Proof.
  destruct (resolveEventsIfPossible_cases this gl)
    as (pre & rest & _ & _ & [-> | [_ ->]]); cbn; congruence.
Qed.

Lemma tidy_foreign frame this gl :
  foreign frame -> tidy this gl -> tidy this (frame gl).
Proof.
  intros Hframe H. destruct (Hframe gl) as (Hnext & Hsame & _).
  unfold tidy. rewrite Hnext, Hsame. exact H.
Qed.

Lemma run_tidy cs :
  forall this gl,
  Forall quiet cs ->
  tidy this gl ->
  tidy (fst (snd (run cs (this, gl)))) (snd (snd (run cs (this, gl)))).
Proof.
  induction cs as [|c cs IH]; intros this gl Hquiet H; [exact H|].
  apply Forall_cons in Hquiet as [Hc Hquiet]. cbn [run]. unfold bind.
  pose proof (call_tidy c this gl Hc H) as Hcall.
  destruct (call c (this, gl)) as [[[]|err] [this1 gl1]]; [|exact Hcall].
  apply IH; assumption.
Qed.

Lemma exportSpeedscopeProfile_tidy animationFrames :
  Forall foreign animationFrames ->
  forall this gl,
  tidy this gl ->
  fst (exportSpeedscopeProfile animationFrames (this, gl)) <>
    Some (Throw GpuDisjoint) ->
  tidy (fst (snd (exportSpeedscopeProfile animationFrames (this, gl))))
       (snd (snd (exportSpeedscopeProfile animationFrames (this, gl)))).
Proof.
  induction 1 as [|frame later Hframe _ IH]; intros this gl H;
    cbn [exportSpeedscopeProfile fst];
    (destruct (0 <? length (eventsPendingTimestamps this))%nat;
      [|intros _;
        pose proof (toSpeedscopeProfile_state (this, gl)) as Hst;
        destruct (toSpeedscopeProfile (this, gl)); cbn in *; subst; exact H]);
    pose proof (resolveEventsIfPossible_tidy this gl H) as Hres;
    pose proof (resolveEventsIfPossible_throws this gl) as Hthrow;
    destruct (resolveEventsIfPossible (this, gl)) as [[[]|err] [this1 gl1]];
    cbn [fst snd] in *;
    try (intros Hne; exfalso; apply Hne; rewrite (Hthrow err eq_refl);
         reflexivity).
  - intros _. apply Hres. reflexivity.
  - apply IH. apply tidy_foreign; [exact Hframe|]. apply Hres. reflexivity.
Qed.

(** X16: the queries are handled in order.  Call a state tidy when the
    handles the profiler holds (those of the pending entries and the active
    one) are distinct handles issued by the context, none of them is
    deleted, and none was deleted twice.  A new profiler is tidy on a
    context whose deleted handles are distinct and issued; every script
    keeps a state tidy, however it ends, other work on the context leaving
    timer queries alone; and so does an export that is not rejected by the
    disjoint error.  So deleteQueryEXT is not called twice on a query, nor
    on a query that is still pending or active. *)
Theorem handles_stay_tidy :
  (forall context,
     NoDup (gl_deleted context) ->
     Forall (fun query => query < gl_next_query context) (gl_deleted context) ->
     tidy (new_WebGLProfiler context) context) /\
  (forall cs this gl,
     Forall quiet cs ->
     tidy this gl ->
     tidy (fst (snd (run cs (this, gl)))) (snd (snd (run cs (this, gl))))) /\
  (forall animationFrames this gl,
     Forall foreign animationFrames ->
     tidy this gl ->
     fst (exportSpeedscopeProfile animationFrames (this, gl)) <>
       Some (Throw GpuDisjoint) ->
     tidy (fst (snd (exportSpeedscopeProfile animationFrames (this, gl))))
          (snd (snd (exportSpeedscopeProfile animationFrames (this, gl))))).
Proof.
  split; [|split].
  - intros context Hnodup Hbelow. unfold tidy, handles. cbn.
    repeat split; try assumption; try constructor.
    intros q Hq. inversion Hq.
  - intros cs this gl. apply run_tidy.
  - intros animationFrames this gl Hframes. apply exportSpeedscopeProfile_tidy.
    exact Hframes.
Qed.

Lemma handles_stay_tidy_witness :
  let st := snd (exportSpeedscopeProfile [id]
                   (fst after_example_session, snd after_example_session)) in
  tidy (fst st) (snd st) /\
  gl_deleted (snd st) = [3; 2; 1; 0].
Proof.
  intros st. split; [|vm_compute; reflexivity].
  destruct handles_stay_tidy as (Hnew & Hrun & Hexport).
  apply Hexport.
  - repeat constructor.
  - apply (Hrun example_session (new_WebGLProfiler chrome_context) chrome_context).
    + repeat constructor.
    + apply Hnew; constructor.
  - vm_compute. discriminate.
Defined.

Lemma orphan_kept h this gl this' gl' :
  orphan h this gl ->
  gl_next_query gl <= gl_next_query gl' ->
  (forall q, q ∈ handles this' -> q ∈ handles this \/ gl_next_query gl <= q) ->
  (forall q, q ∈ gl_deleted gl' -> q ∈ gl_deleted gl \/ q ∈ handles this) ->
  orphan h this' gl'.
Proof.
  intros (Hissued & Hfree & Hkept) Hnext Hheld Hdeleted.
  split; [lia|]. split.
  - intros Hin. destruct (Hheld h Hin) as [Hold|Hnew]; [exact (Hfree Hold)|lia].
  - intros Hin. destruct (Hdeleted h Hin) as [Hold|Hold]; auto.
Qed.

Lemma markAction_orphan h action this gl :
  orphan h this gl ->
  orphan h (fst (snd (markAction action (this, gl))))
           (snd (snd (markAction action (this, gl)))).
Proof.
  intros H. rewrite markAction_eq.
  destruct (ext this) as [e|] eqn:Hext;
    [destruct (activeQuery this) as [old|] eqn:Hactive|]; try exact H.
  cbn [fst snd]. apply (orphan_kept h this gl); [exact H|cbn; lia| |].
  - intros q. unfold handles. cbn [eventsPendingTimestamps activeQuery].
    rewrite Hactive, map_app, <- !app_assoc. cbn [map pend_query app].
    rewrite !elem_of_app, !elem_of_cons. intros [Hq|[Hq|[Hq|Hq]]].
    + left. left. exact Hq.
    + left. right. left. exact Hq.
    + right. lia.
    + inversion Hq.
  - intros q Hq. left. exact Hq.
Qed.

Lemma popContext_orphan h name this gl :
  orphan h this gl ->
  orphan h (fst (snd (popContext name (this, gl))))
           (snd (snd (popContext name (this, gl)))).
Proof.
  intros H. rewrite popContext_eq.
  destruct (namedContextStack this); [exact H|]. cbv zeta.
  destruct (bool_decide _); [|exact H].
  apply markAction_orphan. exact H.
Qed.

Lemma call_orphan h c this gl :
  quiet c ->
  orphan h this gl ->
  orphan h (fst (snd (call c (this, gl)))) (snd (snd (call c (this, gl)))).
Proof.
  intros Hquiet H. destruct c as [| |name|name|work]; cbn [call].
  - rewrite start_outcome. start_guards this gl; try exact H.
    cbn [fst snd]. apply (orphan_kept h this gl); [exact H|cbn; lia| |].
    + intros q. unfold handles. cbn.
      rewrite !elem_of_cons. intros [->|[->|Hq]]; [right; lia|right; lia|].
      inversion Hq.
    + intros q Hq. left. exact Hq.
  - rewrite stop_eq.
    destruct (ext this); [|exact H]. destruct (isRunning this); [|exact H].
    pose proof (popContext_orphan h "profile" (set_isRunning false this) gl H)
      as Hpop.
    destruct (popContext _ _) as [[[]|err] [this1 gl1]]; [|exact Hpop].
    cbn [fst snd] in *.
    apply (orphan_kept h this1 gl1); [exact Hpop|cbn; lia| |].
    + intros q. unfold handles.
      cbn [eventsPendingTimestamps activeQuery set_activeQuery].
      rewrite app_nil_r. intros Hq. left. apply elem_of_app. left. exact Hq.
    + intros q Hq. left. exact Hq.
  - rewrite pushContext_eq.
    pose proof (markAction_orphan h (mkAction OPEN_FRAME name) this gl H)
      as Hmark.
    destruct (markAction _ _) as [[[]|err] [this1 gl1]]; exact Hmark.
  - apply popContext_orphan. exact H.
  - destruct H as (Hissued & Hfree & Hkept).
    destruct (Hquiet gl) as (Hnext & Hsame & _).
    unfold orphan, glDo. cbn [fst snd]. rewrite Hnext, Hsame. auto.
Qed.

Lemma run_orphan h cs :
  forall this gl,
  Forall quiet cs ->
  orphan h this gl ->
  orphan h (fst (snd (run cs (this, gl)))) (snd (snd (run cs (this, gl)))).
Proof.
  induction cs as [|c cs IH]; intros this gl Hquiet H; [exact H|].
  apply Forall_cons in Hquiet as [Hc Hquiet]. cbn [run]. unfold bind.
  pose proof (call_orphan h c this gl Hc H) as Hcall.
  destruct (call c (this, gl)) as [[[]|err] [this1 gl1]]; [|exact Hcall].
  apply IH; assumption.
Qed.

Lemma resolveEventsIfPossible_orphan h this gl :
  orphan h this gl ->
  orphan h (fst (snd (resolveEventsIfPossible (this, gl))))
           (snd (snd (resolveEventsIfPossible (this, gl)))).
Proof.
  intros H.
  destruct (resolveEventsIfPossible_cases this gl)
    as (pre & rest & Hq & _ & [Hcall | [_ Hcall]]);
    rewrite Hcall; cbn [fst snd];
    (apply (orphan_kept h this gl); [exact H|cbn; lia| |]);
    unfold handles;
    cbn [eventsPendingTimestamps activeQuery set_resolvedEvents polled
         gl_deleted];
    rewrite Hq, map_app; intros q; rewrite !elem_of_app; try rewrite elem_of_rev;
    tauto.
Qed.

Lemma exportSpeedscopeProfile_orphan h animationFrames :
  Forall foreign animationFrames ->
  forall this gl,
  orphan h this gl ->
  orphan h (fst (snd (exportSpeedscopeProfile animationFrames (this, gl))))
           (snd (snd (exportSpeedscopeProfile animationFrames (this, gl)))).
Proof.
  induction 1 as [|frame later Hframe _ IH]; intros this gl H;
    cbn [exportSpeedscopeProfile fst];
    (destruct (0 <? length (eventsPendingTimestamps this))%nat;
      [|pose proof (toSpeedscopeProfile_state (this, gl)) as Hst;
        destruct (toSpeedscopeProfile (this, gl)); cbn in *; subst; exact H]);
    pose proof (resolveEventsIfPossible_orphan h this gl H) as Hres;
    destruct (resolveEventsIfPossible (this, gl)) as [[[]|err] [this1 gl1]];
    cbn [fst snd] in *; try exact Hres.
  apply IH. destruct Hres as (Hissued & Hfree & Hkept).
  destruct (Hframe gl1) as (Hnext & Hsame & _).
  unfold orphan. rewrite Hnext, Hsame. auto.
Qed.

(** X17: stop() leaves a query behind.  markAction, called by popContext
    for the close of "profile", creates and begins a new query; stop() then
    ends it and clears the handle, so the query is in no pending entry and,
    not being the active one either, is not held by the profiler, and it
    has not been deleted. *)
Theorem stop_leaves_a_query this gl below query :
  is_Some (ext this) ->
  isRunning this = true ->
  activeQuery this = Some query ->
  namedContextStack this = below ++ ["profile"] ->
  tidy this gl ->
  fst (stop (this, gl)) = Normal tt /\
  orphan (gl_next_query gl) (fst (snd (stop (this, gl))))
                            (snd (snd (stop (this, gl)))).
Proof.
  intros [e Hext] Hrun Hactive Hstack (Hnodup & Hbelow & Hdel & _ & _).
  rewrite stop_eq, Hext, Hrun, popContext_eq.
  cbn [namedContextStack set_isRunning]. rewrite Hstack.
  destruct (below ++ ["profile"]) as [|top rest] eqn:Hsnoc;
    [destruct below; discriminate|].
  rewrite <- Hsnoc. cbv zeta.
  rewrite last_snoc, removelast_snoc, bool_decide_eq_true_2 by reflexivity.
  rewrite markAction_eq. cbn. rewrite Hext, Hactive.
  split; [reflexivity|].
  rewrite Forall_forall in Hbelow. rewrite Forall_forall in Hdel.
  unfold orphan, handles. cbn. split; [lia|]. split.
  - rewrite app_nil_r, map_app. cbn. intros Hin.
    assert (gl_next_query gl ∈ handles this) as Hheld.
    { unfold handles. rewrite Hactive. exact Hin. }
    specialize (Hbelow _ Hheld). lia.
  - intros Hin. specialize (Hdel _ Hin). lia.
Qed.

Lemma stop_leaves_a_query_witness :
  let st := snd (run [Start; PushContext "draw"; PopContext "draw"]
                   (new_WebGLProfiler chrome_context, chrome_context)) in
  fst (stop (fst st, snd st)) = Normal tt /\
  orphan 4 (fst (snd (stop (fst st, snd st))))
           (snd (snd (stop (fst st, snd st)))).
Proof.
  intros st.
  apply (stop_leaves_a_query (fst st) (snd st) [] 3).
  - exists ExtObject. reflexivity.
  - reflexivity.
  - reflexivity.
  - reflexivity.
  - apply (run_tidy [Start; PushContext "draw"; PopContext "draw"]).
    + repeat constructor.
    + unfold tidy, handles. cbn.
      repeat split; try constructor. intros q Hq. inversion Hq.
Defined.

(** X18: a query the profiler does not hold and has not deleted stays that
    way.  New handles are fresh ones, and resolveEventsIfPossible deletes
    only queries of pending entries; so whatever script runs and however an
    export ends, such a query is never deleted: the query left behind by
    stop() is not released by the profiler. *)
Theorem orphan_is_never_deleted h this gl :
  orphan h this gl ->
  (forall cs,
     Forall quiet cs ->
     orphan h (fst (snd (run cs (this, gl)))) (snd (snd (run cs (this, gl))))) /\
  orphan h (fst (snd (resolveEventsIfPossible (this, gl))))
           (snd (snd (resolveEventsIfPossible (this, gl)))) /\
  (forall animationFrames,
     Forall foreign animationFrames ->
     orphan h (fst (snd (exportSpeedscopeProfile animationFrames (this, gl))))
              (snd (snd (exportSpeedscopeProfile animationFrames (this, gl))))).
Proof.
  intros H. split; [|split].
  - intros cs Hquiet. apply run_orphan; assumption.
  - apply resolveEventsIfPossible_orphan. exact H.
  - intros animationFrames Hframes.
    apply exportSpeedscopeProfile_orphan; assumption.
Qed.

Lemma orphan_is_never_deleted_witness :
  let st := snd (exportSpeedscopeProfile [id]
                   (fst after_example_session, snd after_example_session)) in
  orphan 4 (fst st) (snd st) /\
  gl_deleted (snd st) = [3; 2; 1; 0] /\
  gl_next_query (snd st) = 5.
Proof.
  intros st. split; [|split; vm_compute; reflexivity].
  apply (orphan_is_never_deleted 4 (fst after_example_session)
           (snd after_example_session)).
  - unfold orphan, handles. vm_compute.
    split; [lia|]. split; intros Hin.
    + repeat (apply elem_of_cons in Hin as [Hin|Hin]; [discriminate|]).
      inversion Hin.
    + inversion Hin.
  - repeat constructor.
Defined.

(** ** A context without the timer extension *)

Lemma call_unsupported c this gl :
  ext this = None ->
  exists stack,
    fst (snd (call c (this, gl))) = set_namedContextStack stack this /\
    ((forall work, c <> GLWork work) -> snd (snd (call c (this, gl))) = gl).
Proof.
  destruct this as [e active running pending resolved stack].
  cbn [ext]. intros ->. destruct c as [| |name|name|work]; cbn [call].
  - rewrite start_outcome. exists stack. split; reflexivity.
  - rewrite stop_eq. exists stack. split; reflexivity.
  - rewrite pushContext_eq, markAction_eq. exists (stack ++ [name]).
    split; reflexivity.
  - rewrite popContext_eq. cbn [namedContextStack].
    destruct stack as [|top below]; [exists []; split; reflexivity|].
    cbv zeta. exists (removelast (top :: below)).
    destruct (bool_decide _); [rewrite markAction_eq|]; split; reflexivity.
  - exists stack. split; [reflexivity|].
    intros Hown. exfalso. exact (Hown work eq_refl).
Qed.

Lemma run_unsupported cs :
  forall this gl,
  ext this = None ->
  exists stack,
    fst (snd (run cs (this, gl))) = set_namedContextStack stack this /\
    (Forall (fun c => forall work, c <> GLWork work) cs ->
     snd (snd (run cs (this, gl))) = gl).
Proof.
  induction cs as [|c cs IH]; intros this gl Hext.
  - exists (namedContextStack this). split; [destruct this|]; reflexivity.
  - cbn [run]. unfold bind.
    destruct (call_unsupported c this gl Hext) as (stack & Hthis & Hgl).
    destruct (call c (this, gl)) as [[[]|err] [this1 gl1]]; cbn [fst snd] in *.
    + subst this1.
      destruct (IH (set_namedContextStack stack this) gl1) as (stack' & Hrun & Hgl');
        [destruct this; exact Hext|].
      exists stack'. split; [rewrite Hrun; destruct this; reflexivity|].
      intros Hown. apply Forall_cons in Hown as [Hc Hown].
      rewrite (Hgl' Hown). exact (Hgl Hc).
    + exists stack. split; [exact Hthis|].
      intros Hown. apply Forall_cons in Hown as [Hc _]. exact (Hgl Hc).
Qed.

(** X19: on a context without EXT_disjoint_timer_query the profiler
    records nothing.  Whatever calls are made on a profiler constructed
    there, only its stack of context names changes: no event is queued or
    resolved, the profiler is never running, and the calls of the profiler
    leave the context as it was.  start() throws the unsupported error
    and stopAndDownload is rejected with the empty-profile error, at every
    point. *)
Theorem unsupported_context_records_nothing context cs animationFrames :
  getExtension "EXT_disjoint_timer_query" context = false ->
  let st := snd (run cs (new_WebGLProfiler context, context)) in
  (exists stack, fst st = mkProfiler None None false [] [] stack) /\
  (Forall (fun c => forall work, c <> GLWork work) cs -> snd st = context) /\
  start st = (Throw ExtensionNotAvailable, st) /\
  stopAndDownload animationFrames st = (Some (Throw ProfileIsEmpty), st).
Proof.
  intros Hext st. subst st.
  destruct (run_unsupported cs (new_WebGLProfiler context) context)
    as (stack & Hthis & Hgl);
    [unfold new_WebGLProfiler; rewrite Hext; reflexivity|].
  destruct (run cs _) as [c [this gl]]. cbn [fst snd] in *.
  unfold new_WebGLProfiler in Hthis. rewrite Hext in Hthis.
  cbn in Hthis. subst this.
  split; [exists stack; reflexivity|]. split; [exact Hgl|].
  split; [reflexivity|].
  unfold stopAndDownload, downloadWhenReady. rewrite stop_eq. cbn [ext].
  destruct animationFrames; reflexivity.
Qed.

Lemma unsupported_context_records_nothing_witness :
  let st := snd (run [PushContext "a"; GLWork id; PopContext "a"; Stop]
                   (new_WebGLProfiler firefox_context, firefox_context)) in
  start st = (Throw ExtensionNotAvailable, st) /\
  stopAndDownload [id] st = (Some (Throw ProfileIsEmpty), st).
Proof.
  intros st.
  apply (unsupported_context_records_nothing firefox_context
           [PushContext "a"; GLWork id; PopContext "a"; Stop] [id]).
  reflexivity.
Defined.

(** ** stopAndDownload and isProfilerRunning *)

(** X20: stopAndDownload works once.  With the extension, a
    stopAndDownload that was fulfilled has stopped the profiler, and the
    export does not start it again; so a second stopAndDownload is rejected
    by stop() with the already-stopped error, before anything is exported,
    and changes nothing. *)
Theorem stopAndDownload_once animationFrames this gl file st' :
  is_Some (ext this) ->
  stopAndDownload animationFrames (this, gl) = (Some (Normal file), st') ->
  forall animationFrames' gl',
    stopAndDownload animationFrames' (fst st', gl') =
      (Some (Throw AlreadyStopped), (fst st', gl')).
Proof.
  intros [e Hext] Hfirst animationFrames' gl'.
  unfold stopAndDownload, downloadWhenReady in Hfirst.
  rewrite stop_eq, Hext in Hfirst.
  destruct (isRunning this) eqn:Hrun; [|discriminate Hfirst].
  destruct (popContext_fields "profile" (set_isRunning false this) gl)
    as (Hext1 & Hrun1 & _).
  destruct (popContext _ _) as [[[]|err] [this1 gl1]];
    [|discriminate Hfirst].
  cbn [fst snd] in Hext1, Hrun1.
  assert (is_Some (ext (fst st')) /\ isRunning (fst st') = false)
    as [[e' Hext'] Hrun'].
  { replace st' with
      (snd (exportSpeedscopeProfile animationFrames
              (set_activeQuery None this1, endQueryEXT gl1)))
      by (rewrite Hfirst; reflexivity).
    apply (exportSpeedscopeProfile_invariant
             (fun st => is_Some (ext (fst st)) /\ isRunning (fst st) = false)).
    - intros [this0 gl0] [He Hr].
      destruct (resolveEventsIfPossible_fields this0 gl0) as (He0 & Hr0 & _).
      cbn [fst] in *. rewrite He0, Hr0. split; assumption.
    - apply Forall_forall. intros frame _ this0 gl0 H. exact H.
    - cbn [fst]. destruct this1, this. cbn in *. subst.
      split; [eexists|]; reflexivity. }
  unfold stopAndDownload. rewrite stop_eq, Hext', Hrun'. reflexivity.
Qed.

Lemma stopAndDownload_once_witness :
  let st := snd (run [Start; PushContext "a"; PopContext "a"]
                   (new_WebGLProfiler chrome_context, chrome_context)) in
  let st' := snd (stopAndDownload [id] st) in
  stopAndDownload [id] st = (Some (Normal example_file), st') /\
  stopAndDownload [] (fst st', snd st') =
    (Some (Throw AlreadyStopped), (fst st', snd st')).
Proof.
  intros st st'. split; [vm_compute; reflexivity|].
  apply (stopAndDownload_once [id] (fst st) (snd st) example_file st').
  - exists ExtObject. reflexivity.
  - vm_compute. reflexivity.
Defined.

(** X21: isProfilerRunning over a session.  After a start() that returned
    and any well-nested run of pushContext, popContext and other work on
    the context, isProfilerRunning answers true; after the stop() that
    follows it answers false.  It changes nothing. *)
Theorem isProfilerRunning_over_a_session this gl cs :
  WellNested cs ->
  fst (start (this, gl)) = Normal tt ->
  let during := snd (run (Start :: cs) (this, gl)) in
  let after := snd (run (Start :: cs ++ [Stop]) (this, gl)) in
  isProfilerRunning during = (Normal true, during) /\
  isProfilerRunning after = (Normal false, after).
Proof.
  intros Hcs Hstart during after. split.
  - subst during. cbn [run call]. unfold bind.
    destruct (start_live this gl Hstart) as [-> Hlive].
    destruct (started this gl) as [this0 gl0] eqn:Hst. cbn [fst] in Hlive.
    destruct (run_WellNested cs Hcs this0 gl0 Hlive)
      as (this1 & gl1 & -> & _ & Hrun & _).
    unfold isProfilerRunning, bind, getThis, ret. cbn [fst snd].
    rewrite Hrun.
    replace this0 with (fst (started this gl)) by (rewrite Hst; reflexivity).
    reflexivity.
  - subst after.
    destruct (session_runs this gl cs Hcs Hstart)
      as (this1 & gl1 & -> & _ & _ & _ & Hrun & _).
    unfold isProfilerRunning, bind, getThis, ret. cbn [fst snd].
    rewrite Hrun. reflexivity.
Qed.

Lemma isProfilerRunning_over_a_session_witness :
  let during := snd (run [Start; PushContext "a"; PopContext "a"]
                       (new_WebGLProfiler chrome_context, chrome_context)) in
  let after := after_example_session in
  isProfilerRunning during = (Normal true, during) /\
  isProfilerRunning after = (Normal false, after).
Proof.
  apply (isProfilerRunning_over_a_session (new_WebGLProfiler chrome_context)
           chrome_context [PushContext "a"; PopContext "a"]).
  - exact (WellNested_scope "a" [] [] WellNested_nil WellNested_nil).
  - vm_compute. reflexivity.
Defined.

(** X22: start() abandons what was pending.  start() replaces the pending
    queue by an empty one without deleting its queries, and takes a new
    active query; so every query the profiler held before a start() that
    returned, those of a profile that was stopped and not exported, is
    afterwards neither held nor deleted. *)
Theorem start_abandons_pending this gl query :
  tidy this gl ->
  fst (start (this, gl)) = Normal tt ->
  query ∈ handles this ->
  orphan query (fst (snd (start (this, gl)))) (snd (snd (start (this, gl)))).
Proof.
  intros (_ & Hbelow & Hdel & _ & Hsep) Hstart Hheld.
  rewrite start_outcome in Hstart |- *.
  start_guards this gl; try discriminate Hstart.
  rewrite Forall_forall in Hbelow. specialize (Hbelow _ Hheld).
  unfold orphan, handles. cbn. split; [lia|]. split.
  - rewrite !elem_of_cons. intros [->|[->|Hin]]; [lia|lia|inversion Hin].
  - apply Hsep. exact Hheld.
Qed.

Lemma start_abandons_pending_witness :
  let st := after_example_session in
  handles (fst st) = [0; 1; 2; 3] /\
  orphan 2 (fst (snd (start (fst st, snd st))))
           (snd (snd (start (fst st, snd st)))).
Proof.
  intros st. split; [vm_compute; reflexivity|].
  apply (start_abandons_pending (fst st) (snd st) 2).
  - apply (run_tidy example_session).
    + repeat constructor.
    + unfold tidy, handles. cbn.
      repeat split; try constructor. intros q Hq. inversion Hq.
  - vm_compute. reflexivity.
  - apply (proj2 (list_elem_of_In _ _)). vm_compute. auto.
Defined.
